(** * SimpleVector: a shallow embedding of [simple_vector.h]

    The container is a record of the three private members [items_],
    [size_] and [capacity_].  [size_t] is a 64-bit unsigned integer: it is
    modelled by [Z] and every arithmetic result is reduced with [wrap].
    An iterator ([Type*]) is modelled by its element offset from [items_];
    dereferencing an offset that is outside the allocated buffer, or any
    offset of a null buffer, is undefined behaviour.

    Modelling conventions:
    - the member functions are modelled for the run in which every
      [new Type[n]] succeeds, yielding [n] slots with indeterminate
      contents; the runs in which the allocation of a member function
      throws are modelled apart ([Reserve_bad_alloc],
      [assign_copy_bad_alloc], [Resize_bad_alloc],
      [InsertInVector_bad_alloc]);
    - the element type's [operator==] and [operator<] are parameters
      ([T_equal], [T_less]), as is the value of [Type{}] ([T_default]);
    - moving or copying an element transfers the slot contents and leaves
      the source slot as it was (true of trivially copyable element types);
    - [std::move], [std::copy], [std::move_backward] and [std::fill] on
      pointers run [last - first] iterations and are followed step by
      step also where source and destination ranges overlap; a range
      whose end lies before its start is not a range, and handing one to
      an algorithm is undefined behaviour (a range [[begin(), begin() + n)]
      with [n] a [size_t] cannot be one);
    - a failed [assert] aborts the program;
    - [delete[]] has no observable effect on the members and is elided. *)

From Stdlib Require Import ZArith Lia String.
From stdpp Require Import base option list.

Open Scope Z_scope.

(** ** [size_t] *)

Definition SIZE_MAX : Z := 2 ^ 64 - 1.

Definition wrap (x : Z) : Z := x mod 2 ^ 64.

(** ** [ReserveProxyObj] *)

Record ReserveProxyObj := { reserve_ : Z }.

Definition GetReserve (obj : ReserveProxyObj) : Z := reserve_ obj.

(** The free function [Reserve(capacity_to_reserve)]. *)
Definition Reserve_proxy (capacity_to_reserve : Z) : ReserveProxyObj :=
  {| reserve_ := capacity_to_reserve |}.

(** ** Exceptions *)

Inductive exception :=
| out_of_range (what : string)
| bad_alloc.

Section Vector.

Context {T : Type}.

(** The value of [Type{}]. *)
Variable T_default : T.

(** ** Raw storage *)

(** One array element: either never written since [new Type[n]] or holding
    a value. *)
Inductive slot :=
| Indeterminate
| Value (x : T).

(** A [Type*]: [None] is [nullptr], [Some l] an array of [length l] slots. *)
Definition buffer : Type := option (list slot).

Definition new_array (n : Z) : buffer :=
  Some (replicate (Z.to_nat n) Indeterminate).

(** Reading the element at [p + i]. *)
Definition load (p : buffer) (i : Z) : option slot :=
  match p with
  | None => None
  | Some l => if 0 <=? i then l !! Z.to_nat i else None
  end.

(** Writing [x] to the element at [p + i]. *)
Definition store (p : buffer) (i : Z) (x : slot) : option buffer :=
  match p with
  | None => None
  | Some l =>
      if (0 <=? i) && (i <? Z.of_nat (length l))
      then Some (Some (<[Z.to_nat i := x]> l))
      else None
  end.

(** [std::move(src + first, src + first + n, dst + d_first)] (also
    [std::copy]) between two distinct arrays. *)
Fixpoint std_move (n : nat) (src : buffer) (first : Z)
    (dst : buffer) (d_first : Z) : option buffer :=
  match n with
  | O => Some dst
  | S n' =>
      x ← load src first;
      dst' ← store dst d_first x;
      std_move n' src (first + 1) dst' (d_first + 1)
  end.

(** [std::move(p + first, p + first + n, p + d_first)] inside one array:
    every store is seen by the loads that follow. *)
Fixpoint std_move_within (n : nat) (p : buffer) (first d_first : Z)
    : option buffer :=
  match n with
  | O => Some p
  | S n' =>
      x ← load p first;
      p' ← store p d_first x;
      std_move_within n' p' (first + 1) (d_first + 1)
  end.

(** [std::move_backward(p + last - n, p + last, p + d_last)] inside one
    array: each step decrements both pointers, then moves one element. *)
Fixpoint std_move_backward (n : nat) (p : buffer) (last d_last : Z)
    : option buffer :=
  match n with
  | O => Some p
  | S n' =>
      x ← load p (last - 1);
      p' ← store p (d_last - 1) x;
      std_move_backward n' p' (last - 1) (d_last - 1)
  end.

(** [std::fill(p + first, p + first + n, value)]. *)
Fixpoint std_fill (n : nat) (p : buffer) (first : Z) (value : slot)
    : option buffer :=
  match n with
  | O => Some p
  | S n' =>
      p' ← store p first value;
      std_fill n' p' (first + 1) value
  end.

(** The number of elements of the pointer range [[first, last)]; none for
    an end that lies before the start. *)
Definition range_count (first last : Z) : option nat :=
  if last <? first then None else Some (Z.to_nat (last - first)).

(** ** The container *)

Record SimpleVector := mkSimpleVector {
  items_ : buffer;
  size_ : Z;
  capacity_ : Z
}.

(** The outcome of a member function: a normal return or an exception,
    each with the members as they are at that point, undefined behaviour,
    or a failed [assert]. *)
Inductive result (A : Type) :=
| Return (a : A) (this : SimpleVector)
| Throw (e : exception) (this : SimpleVector)
| Undefined
| Abort.

Arguments Return {A} a this.
Arguments Throw {A} e this.
Arguments Undefined {A}.
Arguments Abort {A}.

Definition method (A : Type) : Type := SimpleVector → result A.

Definition ret {A} (a : A) : method A := fun this => Return a this.

Definition bind {A B} (m : method A) (k : A → method B) : method B :=
  fun this =>
    match m this with
    | Return a this' => k a this'
    | Throw e this' => Throw e this'
    | Undefined => Undefined
    | Abort => Abort
    end.

Notation "'let*' x ':=' m 'in' k" := (bind m (fun x => k))
  (at level 10, x name, m at level 100, k at level 200).

Definition get {A} (field : SimpleVector → A) : method A :=
  fun this => Return (field this) this.

Definition set_items (p : buffer) : method unit :=
  fun this => Return tt (mkSimpleVector p (size_ this) (capacity_ this)).

Definition set_size (n : Z) : method unit :=
  fun this => Return tt (mkSimpleVector (items_ this) n (capacity_ this)).

Definition set_capacity (n : Z) : method unit :=
  fun this => Return tt (mkSimpleVector (items_ this) (size_ this) n).

(** A memory access: out of bounds is undefined behaviour. *)
Definition access {A} (o : option A) : method A :=
  fun this => match o with Some a => Return a this | None => Undefined end.

Definition throw {A} (e : exception) : method A := fun this => Throw e this.

Definition when (b : bool) (m : method unit) : method unit :=
  if b then m else ret tt.

(** *** Constructors

    A constructor is its body run on the members as the member
    initialisers leave them. *)

Definition SimpleVector_default : SimpleVector :=
  mkSimpleVector None 0 0.

Definition SimpleVector_reserve (obj : ReserveProxyObj) : SimpleVector :=
  mkSimpleVector (new_array (GetReserve obj)) 0 (GetReserve obj).

Definition SimpleVector_fill (size : Z) (value : T) : result unit :=
  (if size =? 0 then ret tt
   else
     let* _ := set_items (new_array size) in
     let* items := get items_ in
     let* sz := get size_ in
     let* items' := access (std_fill (Z.to_nat sz) items 0 (Value value)) in
     set_items items')
  (mkSimpleVector None size size).

Definition SimpleVector_init (init : list T) : result unit :=
  let n := Z.of_nat (length init) in
  (if n =? 0 then ret tt
   else
     let* _ := set_items (new_array n) in
     let* items := get items_ in
     let* items' :=
       access (std_move (length init) (Some (Value <$> init)) 0 items 0) in
     set_items items')
  (mkSimpleVector None n n).

Definition SimpleVector_copy (other : SimpleVector) : result unit :=
  (let* items := get items_ in
   let* items' :=
     access (std_move (Z.to_nat (size_ other)) (items_ other) 0 items 0) in
   set_items items')
  (mkSimpleVector (new_array (capacity_ other)) (size_ other) (capacity_ other)).

(** The move constructor: the new object and what is left of [other]. *)
Definition SimpleVector_move (other : SimpleVector) : SimpleVector * SimpleVector :=
  (mkSimpleVector (items_ other) (size_ other) (capacity_ other),
   mkSimpleVector None 0 0).

(** *** Queries *)

Definition GetSize : method Z := get size_.

Definition GetCapacity : method Z := get capacity_.

Definition IsEmpty : method bool :=
  let* sz := get size_ in
  ret (sz =? 0).

Definition begin_ : method Z := ret 0.

Definition end_ : method Z :=
  let* sz := get size_ in
  ret (0 + sz).

(** [operator[]]: the slot the returned reference designates. *)
Definition subscript (index : Z) : method slot :=
  let* items := get items_ in
  access (load items index).

Definition At_message : string := "Operation At: Out of range".

Definition At (index : Z) : method slot :=
  let* sz := get size_ in
  let* _ := when (index >=? sz) (throw (out_of_range At_message)) in
  let* items := get items_ in
  access (load items index).

(** Assignment through the reference returned by [operator[]]. *)
Definition subscript_assign (index : Z) (value : T) : method unit :=
  let* items := get items_ in
  let* items' := access (store items index (Value value)) in
  set_items items'.

(** *** Modifiers *)

Definition Clear : method unit := set_size 0.

Definition Resize (new_size : Z) : method unit :=
  let* cap := get capacity_ in
  let* _ :=
    when (cap <? new_size)
      (let* sz := get size_ in
       let* _ := set_capacity (Z.max new_size (wrap (sz * 2))) in
       let* cap' := get capacity_ in
       let tmp := new_array cap' in
       let* items := get items_ in
       let* tmp' := access (std_move (Z.to_nat sz) items 0 tmp 0) in
       let* _ := set_items tmp' in
       let* items := get items_ in
       let* n := access (range_count sz new_size) in
       let* items' := access (std_fill n items sz (Value T_default)) in
       set_items items') in
  set_size new_size.

Definition InsertInVector (pos : Z) (value : T) : method Z :=
  let position := wrap pos in
  let* sz := get size_ in
  let* cap := get capacity_ in
  let* _ :=
    if sz <? cap then
      let* items := get items_ in
      let* n := access (range_count position sz) in
      let* items' := access (std_move_backward n items sz sz) in
      set_items items'
    else
      let* _ := set_capacity (if cap =? 0 then 1 else wrap (cap + cap)) in
      let* cap' := get capacity_ in
      let tmp := new_array cap' in
      let* items := get items_ in
      let* tmp1 := access (std_move (Z.to_nat position) items 0 tmp 0) in
      let* n := access (range_count position sz) in
      let* tmp2 := access (std_move n items position tmp1 (position + 1)) in
      set_items tmp2 in
  let* items := get items_ in
  let* items' := access (store items position (Value value)) in
  let* _ := set_items items' in
  let* sz := get size_ in
  let* _ := set_size (wrap (sz + 1)) in
  ret position.

Definition PushBack (item : T) : method unit :=
  let* e := end_ in
  let* _ := InsertInVector e item in
  ret tt.

Definition PopBack : method unit :=
  let* sz := get size_ in
  if sz =? 0 then (fun _ => Abort)
  else set_size (wrap (sz - 1)).

Definition Insert (pos : Z) (value : T) : method Z :=
  InsertInVector pos value.

Definition Erase (pos : Z) : method Z :=
  let pos_return := pos in
  let* e := end_ in
  let* items := get items_ in
  let* n := access (range_count (pos_return + 1) e) in
  let* items' :=
    access (std_move_within n items (pos_return + 1) pos_return) in
  let* _ := set_items items' in
  let* sz := get size_ in
  let* _ := set_size (wrap (sz - 1)) in
  ret pos_return.

Definition Reserve (new_capacity : Z) : method unit :=
  let* cap := get capacity_ in
  when (cap <? new_capacity)
    (let tmp := new_array new_capacity in
     let* items := get items_ in
     let* sz := get size_ in
     let* tmp' := access (std_move (Z.to_nat sz) items 0 tmp 0) in
     let* _ := set_items tmp' in
     set_capacity new_capacity).

(** [swap]: the two objects afterwards. *)
Definition swap (this other : SimpleVector) : SimpleVector * SimpleVector :=
  (mkSimpleVector (items_ other) (size_ other) (capacity_ other),
   mkSimpleVector (items_ this) (size_ this) (capacity_ this)).

(** Copy assignment; [same] tells whether [this == &rhs]. *)
Definition assign_copy (same : bool) (rhs : SimpleVector) : method unit :=
  if same then ret tt
  else
    let* cap := get capacity_ in
    if size_ rhs <=? cap then
      let* items := get items_ in
      let* items' :=
        access (std_move (Z.to_nat (size_ rhs)) (items_ rhs) 0 items 0) in
      let* _ := set_items items' in
      set_size (size_ rhs)
    else
      fun this =>
        match SimpleVector_copy rhs with
        | Return _ tmp => Return tt (fst (swap this tmp))
        | Throw e _ => Throw e this
        | Undefined => Undefined
        | Abort => Abort
        end.

(** Move assignment: [this] and what is left of [rhs]. *)
Definition assign_move (same : bool) (this rhs : SimpleVector)
    : SimpleVector * SimpleVector :=
  if same then (this, rhs)
  else (mkSimpleVector (items_ rhs) (size_ rhs) (capacity_ rhs),
        mkSimpleVector None 0 0).

(** *** Allocation failure

    The member functions above are the runs in which every [new]
    succeeds; these are the runs in which the allocation throws.
    [Reserve] and the copy assignment allocate before they write a
    member, as do the constructors (which then leave no object).
    [Resize] and [InsertInVector] write [capacity_] first. *)

Definition Reserve_bad_alloc (new_capacity : Z) : method unit :=
  let* cap := get capacity_ in
  when (cap <? new_capacity) (throw bad_alloc).

Definition assign_copy_bad_alloc (same : bool) (rhs : SimpleVector)
    : method unit :=
  if same then ret tt
  else
    let* cap := get capacity_ in
    if size_ rhs <=? cap then
      let* items := get items_ in
      let* items' :=
        access (std_move (Z.to_nat (size_ rhs)) (items_ rhs) 0 items 0) in
      let* _ := set_items items' in
      set_size (size_ rhs)
    else throw bad_alloc.

Definition Resize_bad_alloc (new_size : Z) : method unit :=
  let* cap := get capacity_ in
  let* _ :=
    when (cap <? new_size)
      (let* sz := get size_ in
       let* _ := set_capacity (Z.max new_size (wrap (sz * 2))) in
       throw bad_alloc) in
  set_size new_size.

Definition InsertInVector_bad_alloc (pos : Z) (value : T) : method Z :=
  let position := wrap pos in
  let* sz := get size_ in
  let* cap := get capacity_ in
  let* _ :=
    if sz <? cap then
      let* items := get items_ in
      let* n := access (range_count position sz) in
      let* items' := access (std_move_backward n items sz sz) in
      set_items items'
    else
      let* _ := set_capacity (if cap =? 0 then 1 else wrap (cap + cap)) in
      throw bad_alloc in
  let* items := get items_ in
  let* items' := access (store items position (Value value)) in
  let* _ := set_items items' in
  let* sz := get size_ in
  let* _ := set_size (wrap (sz + 1)) in
  ret position.

(** *** Comparison *)

(** [operator==] on [Type]. *)
Variable T_equal : T → T → bool.

(** One [operator==] on elements; comparing an indeterminate value is
    undefined. *)
Definition slot_eq (x y : slot) : option bool :=
  match x, y with
  | Value a, Value b => Some (T_equal a b)
  | _, _ => None
  end.

(** Which operand a read goes to, and at which offset. *)
Inductive read :=
| ReadLhs (i : Z)
| ReadRhs (i : Z).

(** [std::equal(a + first1, a + first1 + n, b + first2)]: the reads it
    performs, in order, and its value. *)
Fixpoint std_equal (n : nat) (a : buffer) (first1 : Z) (b : buffer) (first2 : Z)
    : list read * option bool :=
  match n with
  | O => ([], Some true)
  | S n' =>
      let here := [ReadLhs first1; ReadRhs first2] in
      match load a first1, load b first2 with
      | Some x, Some y =>
          match slot_eq x y with
          | Some true =>
              let '(rest, r) := std_equal n' a (first1 + 1) b (first2 + 1) in
              (here ++ rest, r)
          | Some false => (here, Some false)
          | None => (here, None)
          end
      | _, _ => (here, None)
      end
  end.

(** [operator==]: [None] is undefined behaviour. *)
Definition operator_eq_trace (lhs rhs : SimpleVector) : list read * option bool :=
  let '(reads, r) :=
    std_equal (Z.to_nat (size_ lhs)) (items_ lhs) 0 (items_ rhs) 0 in
  (reads,
   match r with
   | Some true => Some (size_ lhs =? size_ rhs)
   | other => other
   end).

Definition operator_eq (lhs rhs : SimpleVector) : option bool :=
  snd (operator_eq_trace lhs rhs).

(** ** Observations *)

(** The element sequence: the slots at indices [[0, size_)]. *)
Definition elements (v : SimpleVector) : list slot :=
  match items_ v with
  | None => []
  | Some l => take (Z.to_nat (size_ v)) l
  end.

(** Running a member function on the object a constructor or an earlier
    call produced. *)
Definition and_then {A B} (r : result A) (m : method B) : result B :=
  match r with
  | Return _ this => m this
  | Throw e this => Throw e this
  | Undefined => Undefined
  | Abort => Abort
  end.

(** [PushBack] of each value in turn. *)
Fixpoint push_all (xs : list T) : method unit :=
  match xs with
  | [] => ret tt
  | x :: xs' => let* _ := PushBack x in push_all xs'
  end.

(** The class invariant of section 3 of the specification, without the
    null-buffer clause: the buffer, when present, has [capacity_] slots. *)
Definition wf (v : SimpleVector) : Prop :=
  0 ≤ size_ v ≤ capacity_ v ∧ capacity_ v ≤ SIZE_MAX ∧
  match items_ v with
  | None => capacity_ v = 0
  | Some l => Z.of_nat (length l) = capacity_ v
  end.

(** A buffer of [c] slots; [nullptr] counts as zero slots. *)
Definition buffer_ok (p : buffer) (c : Z) : Prop :=
  match p with
  | None => c = 0
  | Some l => Z.of_nat (length l) = c
  end.

(** The slots of the buffer, none for [nullptr]. *)
Definition slots (p : buffer) : list slot := default [] p.

(** ** Reachable states

    The states a caller can bring an object into: a constructor, then
    public member functions called with their preconditions met (an index
    below [size_], a position inside [[begin(), end()]], a non-empty
    container for [PopBack] and [Erase]) and with arguments that fit
    [size_t].  Two-object operations take their second operand among the
    reachable states as well.  A call may return, [At] may throw, and the
    allocation of [Reserve] and of the copy assignment may throw.

    One kind of state is left out: what [Resize], [PushBack] and [Insert]
    leave behind when their own allocation throws and the caller catches
    the exception ([Resize_bad_alloc], [InsertInVector_bad_alloc]).
    These two write [capacity_] before they allocate, where [Reserve]
    allocates first, and after the throw [capacity_] no longer describes
    the buffer. *)
Inductive reachable : SimpleVector → Prop :=
| reach_default :
    reachable SimpleVector_default
| reach_reserve n :
    0 ≤ n ≤ SIZE_MAX →
    reachable (SimpleVector_reserve (Reserve_proxy n))
| reach_fill size value v :
    0 ≤ size ≤ SIZE_MAX →
    SimpleVector_fill size value = Return tt v → reachable v
| reach_init init v :
    Z.of_nat (length init) ≤ SIZE_MAX →
    SimpleVector_init init = Return tt v → reachable v
| reach_copy other v :
    reachable other →
    SimpleVector_copy other = Return tt v → reachable v
| reach_move_to other :
    reachable other → reachable (fst (SimpleVector_move other))
| reach_move_from other :
    reachable other → reachable (snd (SimpleVector_move other))
| reach_assign_copy same this rhs v :
    reachable this → reachable rhs → (same = true → rhs = this) →
    assign_copy same rhs this = Return tt v → reachable v
| reach_assign_move_to same this rhs :
    reachable this → reachable rhs → (same = true → rhs = this) →
    reachable (fst (assign_move same this rhs))
| reach_assign_move_from same this rhs :
    reachable this → reachable rhs → (same = true → rhs = this) →
    reachable (snd (assign_move same this rhs))
| reach_swap_this this other :
    reachable this → reachable other → reachable (fst (swap this other))
| reach_swap_other this other :
    reachable this → reachable other → reachable (snd (swap this other))
| reach_subscript_assign index value this v :
    reachable this → 0 ≤ index < size_ this →
    subscript_assign index value this = Return tt v → reachable v
| reach_At index this r v :
    reachable this →
    (At index this = Return r v ∨ ∃ e, At index this = Throw e v) →
    reachable v
| reach_Clear this v :
    reachable this → Clear this = Return tt v → reachable v
| reach_Resize new_size this v :
    reachable this → 0 ≤ new_size ≤ SIZE_MAX →
    Resize new_size this = Return tt v → reachable v
| reach_Reserve new_capacity this v :
    reachable this → 0 ≤ new_capacity ≤ SIZE_MAX →
    Reserve new_capacity this = Return tt v → reachable v
| reach_PushBack item this v :
    reachable this → PushBack item this = Return tt v → reachable v
| reach_PopBack this v :
    reachable this → size_ this ≠ 0 →
    PopBack this = Return tt v → reachable v
| reach_Insert pos value this it v :
    reachable this → 0 ≤ pos ≤ size_ this →
    Insert pos value this = Return it v → reachable v
| reach_Erase pos this it v :
    reachable this → 0 ≤ pos < size_ this →
    Erase pos this = Return it v → reachable v
| reach_Reserve_bad_alloc new_capacity this e v :
    reachable this → 0 ≤ new_capacity ≤ SIZE_MAX →
    Reserve_bad_alloc new_capacity this = Throw e v → reachable v
| reach_assign_copy_bad_alloc same this rhs e v :
    reachable this → reachable rhs → (same = true → rhs = this) →
    assign_copy_bad_alloc same rhs this = Throw e v → reachable v.

(** ** The properties the specification states, in its words *)

(** Section 8, size/capacity invariant: [0 <= size <= capacity], and
    [capacity == 0] iff the internal buffer is absent. *)
Definition size_capacity_invariant (v : SimpleVector) : Prop :=
  0 ≤ size_ v ≤ capacity_ v ∧ (capacity_ v = 0 ↔ items_ v = None).

(** Section 4.5, [Insert]: the elements from [offset] on move one slot
    toward the end and [value] takes index [offset]. *)
Definition inserted_at (offset : Z) (value : T) (l : list slot) : list slot :=
  take (Z.to_nat offset) l ++ Value value :: drop (Z.to_nat offset) l.

(** Section 8, growth doubling: [c] is the smallest of [1, 2, 4, 8, ...]
    that is [>= k]. *)
Definition least_power_of_two_geq (c k : Z) : Prop :=
  ∃ j, 0 ≤ j ∧ c = 2 ^ j ∧ k ≤ c ∧ ∀ i, 0 ≤ i → k ≤ 2 ^ i → c ≤ 2 ^ i.

(** Section 4.7, equality: equal length and element-wise equal in order. *)
Definition same_sequence (a b : SimpleVector) : Prop :=
  size_ a = size_ b ∧ elements a = elements b.

(** The same with the elements compared by [Type]'s [operator==]. *)
Definition equal_sequence (a b : SimpleVector) : Prop :=
  size_ a = size_ b ∧
  Forall2 (λ s t, slot_eq s t = Some true) (elements a) (elements b).

(** [Erase(begin())] returns with [size == 2^64 - 1] and the capacity it
    had: what a decrement of [size_] modulo [2^64] on an empty vector
    would leave. *)
Definition Erase_wraps_size (v : SimpleVector) : Prop :=
  ∃ it v', Erase 0 v = Return it v' ∧
           size_ v' = 2 ^ 64 - 1 ∧ capacity_ v' = capacity_ v.

(** Every read of a comparison stays inside the valid element range
    [[0, size)] of the operand it goes to. *)
Definition read_within (lhs rhs : SimpleVector) (r : read) : Prop :=
  match r with
  | ReadLhs i => 0 ≤ i < size_ lhs
  | ReadRhs i => 0 ≤ i < size_ rhs
  end.

Definition reads_within (lhs rhs : SimpleVector) (reads : list read) : Prop :=
  Forall (read_within lhs rhs) reads.

(** ** The remaining operations *)

(** [PopBack] [n] times. *)
Fixpoint pop_all (n : nat) : method unit :=
  match n with
  | O => ret tt
  | S n' => let* _ := PopBack in pop_all n'
  end.

(** [operator!=]. *)
Definition operator_ne (lhs rhs : SimpleVector) : option bool :=
  negb <$> operator_eq lhs rhs.

(** [operator<] on [Type]. *)
Variable T_less : T → T → bool.

(** One [operator<] on elements; comparing an indeterminate value is
    undefined. *)
Definition slot_less (x y : slot) : option bool :=
  match x, y with
  | Value a, Value b => Some (T_less a b)
  | _, _ => None
  end.

(** [std::lexicographical_compare(a + first1, a + first1 + n1,
    b + first2, b + first2 + n2)]: the loop runs while both ranges have
    elements left, and the answer after it is "the first range is
    exhausted and the second is not".  The reads are recorded as for
    [std_equal]. *)
Fixpoint std_lexicographical_compare (n1 n2 : nat)
    (a : buffer) (first1 : Z) (b : buffer) (first2 : Z)
    : list read * option bool :=
  match n1, n2 with
  | S n1', S n2' =>
      let here := [ReadLhs first1; ReadRhs first2] in
      match load a first1, load b first2 with
      | Some x, Some y =>
          match slot_less x y with
          | Some true => (here, Some true)
          | Some false =>
              match slot_less y x with
              | Some true => (here, Some false)
              | Some false =>
                  let '(rest, r) :=
                    std_lexicographical_compare n1' n2'
                      a (first1 + 1) b (first2 + 1) in
                  (here ++ rest, r)
              | None => (here, None)
              end
          | None => (here, None)
          end
      | _, _ => (here, None)
      end
  | O, S _ => ([], Some true)
  | _, O => ([], Some false)
  end.

(** [operator<]. *)
Definition operator_lt_trace (lhs rhs : SimpleVector) : list read * option bool :=
  std_lexicographical_compare (Z.to_nat (size_ lhs)) (Z.to_nat (size_ rhs))
    (items_ lhs) 0 (items_ rhs) 0.

Definition operator_lt (lhs rhs : SimpleVector) : option bool :=
  snd (operator_lt_trace lhs rhs).

(** [operator<=], [operator>] and [operator>=]. *)
Definition operator_le (lhs rhs : SimpleVector) : option bool :=
  negb <$> operator_lt rhs lhs.

Definition operator_gt (lhs rhs : SimpleVector) : option bool :=
  operator_lt rhs lhs.

Definition operator_ge (lhs rhs : SimpleVector) : option bool :=
  negb <$> operator_lt lhs rhs.

(** The lexicographic order on sequences of values, for comparison with
    [operator<]. *)
Fixpoint lex_less (xs ys : list T) : bool :=
  match xs, ys with
  | _, [] => false
  | [], _ :: _ => true
  | x :: xs', y :: ys' =>
      if T_less x y then true
      else if T_less y x then false
      else lex_less xs' ys'
  end.

(** All elements of a vector have been given a value. *)
Definition determinate (v : SimpleVector) : Prop :=
  Forall (λ s, s ≠ Indeterminate) (elements v).

End Vector.

Arguments Indeterminate {T}.
Arguments Value {T} x.
Arguments Return {T A} a this.
Arguments Throw {T A} e this.
Arguments Undefined {T A}.
Arguments Abort {T A}.

(** ** Concrete vectors of [Z] used below *)

(** [{1, 2, 3}]. *)
Definition v123 : @result Z unit := SimpleVector_init [1; 2; 3].

(** [{1, 2, 3, 4}] after one [PopBack]: three elements, capacity 4. *)
Definition v123_spare : @result Z unit :=
  and_then (SimpleVector_init [1; 2; 3; 4]) PopBack.

(** [{1, 2, 3}] after one [PopBack]: two elements, capacity 3. *)
Definition v12_spare : @result Z unit :=
  and_then (SimpleVector_init [1; 2; 3]) PopBack.

(** The members of [{1, 2, 3}]. *)
Definition w123 : @SimpleVector Z :=
  mkSimpleVector (Some [Value 1; Value 2; Value 3]) 3 3.

(** The members of [{1, 2, 3, 4}] after one [PopBack]. *)
Definition w123_spare : @SimpleVector Z :=
  mkSimpleVector (Some [Value 1; Value 2; Value 3; Value 4]) 3 4.

(** The members of [{1, 2, 3}] after one [PopBack]. *)
Definition w12_spare : @SimpleVector Z :=
  mkSimpleVector (Some [Value 1; Value 2; Value 3]) 2 3.

(** The members of [{1}]. *)
Definition w1 : @SimpleVector Z :=
  mkSimpleVector (Some [Value 1]) 1 1.

(** The members of [SimpleVector<int> v(Reserve(0))]. *)
Definition w_reserve0 : @SimpleVector Z :=
  SimpleVector_reserve (Reserve_proxy 0).

Section VectorProofs.

Context {T : Type}.
Variable T_default : T.
Variable T_equal : T → T → bool.

Local Abbreviation slot := (@slot T).
Local Abbreviation buffer := (@buffer T).
Local Abbreviation SimpleVector := (@SimpleVector T).
Local Abbreviation method := (@method T).
Local Abbreviation Resize := (Resize T_default).
Local Abbreviation reachable := (reachable T_default).
Local Abbreviation new_array := (@new_array T).
Local Abbreviation SimpleVector_default := (@SimpleVector_default T).

(** ** Raw storage: loads, stores and the copying loops *)

Lemma load_middle (a b : list slot) (x : slot) :
  load (Some (a ++ x :: b)) (Z.of_nat (length a)) = Some x.
Proof.
  unfold load. rewrite (proj2 (Z.leb_le _ _)) by lia.
  rewrite Nat2Z.id. apply list_lookup_middle. done.
Qed.

Lemma store_middle (a b : list slot) (y x : slot) :
  store (Some (a ++ y :: b)) (Z.of_nat (length a)) x = Some (Some (a ++ x :: b)).
Proof.
  unfold store.
  rewrite (proj2 (Z.leb_le _ _)) by lia.
  rewrite (proj2 (Z.ltb_lt _ _)) by (rewrite length_app; simpl; lia).
  simpl. rewrite Nat2Z.id.
  replace (length a) with (length a + 0)%nat at 1 by lia.
  by rewrite insert_app_r.
Qed.

Lemma store_inv (p p' : buffer) (i : Z) (x : slot) :
  store p i x = Some p' →
  ∃ l, p = Some l ∧ p' = Some (<[Z.to_nat i := x]> l) ∧ 0 ≤ i < Z.of_nat (length l).
Proof.
  unfold store. destruct p as [l|]; [|done].
  destruct (0 <=? i) eqn:H0; [|done].
  destruct (i <? Z.of_nat (length l)) eqn:H1; [|done].
  simpl. intros [= <-]. exists l. split_and!; try done; lia.
Qed.

Lemma load_inv (p : buffer) (i : Z) (x : slot) :
  load p i = Some x →
  ∃ l, p = Some l ∧ l !! Z.to_nat i = Some x ∧ 0 ≤ i < Z.of_nat (length l).
Proof.
  unfold load. destruct p as [l|]; [|done].
  destruct (0 <=? i) eqn:H0; [|done].
  intros Hl. exists l. split_and!; try done; [lia|].
  apply lookup_lt_Some in Hl. lia.
Qed.

Lemma load_in_range (l : list slot) (i : Z) :
  0 ≤ i < Z.of_nat (length l) →
  load (Some l) i = l !! Z.to_nat i ∧ is_Some (l !! Z.to_nat i).
Proof.
  intros Hi. unfold load. rewrite (proj2 (Z.leb_le _ _)) by lia.
  split; [done|]. apply lookup_lt_is_Some. lia.
Qed.

Lemma store_in_range (l : list slot) (i : Z) (x : slot) :
  0 ≤ i < Z.of_nat (length l) →
  store (Some l) i x = Some (Some (<[Z.to_nat i := x]> l)).
Proof.
  intros Hi. unfold store.
  rewrite (proj2 (Z.leb_le _ _)) by lia.
  by rewrite (proj2 (Z.ltb_lt _ _)) by lia.
Qed.

(** Copying [xs] over [ys] between two arrays. *)
Lemma std_move_middle (xs : list slot) :
  ∀ (s1 s2 d1 ys d2 : list slot),
    length ys = length xs →
    std_move (length xs) (Some (s1 ++ xs ++ s2)) (Z.of_nat (length s1))
      (Some (d1 ++ ys ++ d2)) (Z.of_nat (length d1))
    = Some (Some (d1 ++ xs ++ d2)).
Proof.
  induction xs as [|x xs IH]; intros s1 s2 d1 ys d2 Hlen.
  - destruct ys; [done|discriminate].
  - destruct ys as [|y ys]; [discriminate|]. injection Hlen as Hlen.
    cbn [length std_move app].
    rewrite load_middle. cbn [mbind option_bind].
    rewrite store_middle. cbn [mbind option_bind].
    specialize (IH (s1 ++ [x]) s2 (d1 ++ [x]) ys d2 Hlen).
    rewrite !length_app in IH. cbn [length] in IH.
    rewrite !Nat2Z.inj_add in IH. rewrite <- !(assoc_L (++)) in IH.
    exact IH.
Qed.

(** The same with offsets and a count. *)
Lemma std_move_take_drop (n : nat) (ls ld : list slot) (first d : Z) :
  0 ≤ first → 0 ≤ d →
  first + Z.of_nat n ≤ Z.of_nat (length ls) →
  d + Z.of_nat n ≤ Z.of_nat (length ld) →
  std_move n (Some ls) first (Some ld) d
  = Some (Some (take (Z.to_nat d) ld ++ take n (drop (Z.to_nat first) ls)
                  ++ drop (Z.to_nat d + n) ld)).
Proof.
  intros Hf Hd Hls Hld.
  set (s1 := take (Z.to_nat first) ls).
  set (xs := take n (drop (Z.to_nat first) ls)).
  set (s2 := drop n (drop (Z.to_nat first) ls)).
  set (d1 := take (Z.to_nat d) ld).
  set (ys := take n (drop (Z.to_nat d) ld)).
  set (d2 := drop (Z.to_nat d + n) ld).
  assert (Hxs : length xs = n) by (unfold xs; rewrite length_take, length_drop; lia).
  assert (Hys : length ys = n) by (unfold ys; rewrite length_take, length_drop; lia).
  assert (Hs1 : Z.of_nat (length s1) = first) by (unfold s1; rewrite length_take; lia).
  assert (Hd1 : Z.of_nat (length d1) = d) by (unfold d1; rewrite length_take; lia).
  assert (Els : ls = s1 ++ xs ++ s2).
  { unfold s1, xs, s2. by rewrite take_drop, take_drop. }
  assert (Eld : ld = d1 ++ ys ++ d2).
  { unfold d1, ys, d2. rewrite <- drop_drop. by rewrite take_drop, take_drop. }
  rewrite Els at 1. rewrite Eld at 1.
  rewrite <- Hxs at 1. rewrite <- Hs1 at 1. rewrite <- Hd1 at 1.
  apply std_move_middle. congruence.
Qed.

(** Closing a gap of one slot: what [Erase] runs. *)
Lemma std_move_within_shift (xs : list slot) :
  ∀ (a b : list slot) (y : slot),
    std_move_within (length xs) (Some (a ++ y :: xs ++ b))
      (Z.of_nat (length a) + 1) (Z.of_nat (length a))
    = Some (Some (a ++ xs ++ default y (last (y :: xs)) :: b)).
Proof.
  induction xs as [|x xs IH]; intros a b y.
  - done.
  - cbn [length std_move_within].
    replace (a ++ y :: (x :: xs) ++ b) with ((a ++ [y]) ++ x :: xs ++ b)
      by (by rewrite <- (assoc_L (++))).
    replace (Z.of_nat (length a) + 1) with (Z.of_nat (length (a ++ [y])))
      by (rewrite length_app; simpl; lia).
    rewrite load_middle. cbn [mbind option_bind].
    rewrite <- (assoc_L (++)). cbn [app].
    rewrite store_middle. cbn [mbind option_bind].
    specialize (IH (a ++ [x]) b x).
    rewrite length_app in IH. cbn [length] in IH.
    rewrite Nat2Z.inj_add in IH. rewrite <- !(assoc_L (++)) in IH.
    cbn [app] in IH. rewrite length_app. cbn [length].
    rewrite Nat2Z.inj_add. rewrite IH.
    change (last (y :: x :: xs)) with (last (x :: xs)).
    destruct (proj2 (last_is_Some (x :: xs))) as [z ->]; done.
Qed.

(** [std::move_backward] onto the range it reads from changes nothing. *)
Lemma std_move_backward_self (n : nat) :
  ∀ (l : list slot) (last : Z),
    Z.of_nat n ≤ last ≤ Z.of_nat (length l) →
    std_move_backward n (Some l) last last = Some (Some l).
Proof.
  induction n as [|n IH]; intros l last Hlast; [done|].
  cbn [std_move_backward].
  destruct (load_in_range l (last - 1)) as [-> [x Hx]]; [lia|].
  rewrite Hx. cbn [mbind option_bind].
  rewrite store_in_range by lia. cbn [mbind option_bind].
  rewrite list_insert_id by done.
  apply IH. lia.
Qed.

Lemma std_fill_middle (ys : list slot) :
  ∀ (a b : list slot) (x : slot),
    std_fill (length ys) (Some (a ++ ys ++ b)) (Z.of_nat (length a)) x
    = Some (Some (a ++ replicate (length ys) x ++ b)).
Proof.
  induction ys as [|y ys IH]; intros a b x; [done|].
  cbn [length std_fill app replicate].
  rewrite store_middle. cbn [mbind option_bind].
  specialize (IH (a ++ [x]) b x).
  rewrite length_app in IH. cbn [length] in IH.
  rewrite Nat2Z.inj_add in IH. rewrite <- !(assoc_L (++)) in IH.
  exact IH.
Qed.

(** ** A successful loop stays inside the destination array *)

Lemma store_ok (p p' : buffer) (i : Z) (x : slot) (c : Z) :
  store p i x = Some p' → buffer_ok p c → buffer_ok p' c ∧ 0 ≤ i < c.
Proof.
  intros (l & -> & -> & Hi)%store_inv Hc. simpl in *.
  rewrite length_insert. lia.
Qed.

Lemma std_move_ok (n : nat) :
  ∀ (src dst r : buffer) (first d c : Z),
    std_move n src first dst d = Some r → buffer_ok dst c →
    buffer_ok r c ∧ (n ≠ 0%nat → 0 ≤ d ∧ d + Z.of_nat n ≤ c).
Proof.
  induction n as [|n IH]; intros src dst r first d c Hrun Hc.
  - injection Hrun as <-. done.
  - cbn [std_move] in Hrun.
    destruct (load src first) as [x|]; [|done]. cbn [mbind option_bind] in Hrun.
    destruct (store dst d x) as [dst'|] eqn:Hst; [|done].
    cbn [mbind option_bind] in Hrun.
    destruct (store_ok _ _ _ _ _ Hst Hc) as [Hc' Hd].
    destruct (IH _ _ _ _ _ _ Hrun Hc') as [Hr Hn].
    split; [done|]. intros _. destruct n; lia.
Qed.

Lemma std_move_within_ok (n : nat) :
  ∀ (p r : buffer) (first d c : Z),
    std_move_within n p first d = Some r → buffer_ok p c → buffer_ok r c.
Proof.
  induction n as [|n IH]; intros p r first d c Hrun Hc.
  - by injection Hrun as <-.
  - cbn [std_move_within] in Hrun.
    destruct (load p first) as [x|]; [|done]. cbn [mbind option_bind] in Hrun.
    destruct (store p d x) as [p'|] eqn:Hst; [|done].
    cbn [mbind option_bind] in Hrun.
    destruct (store_ok _ _ _ _ _ Hst Hc) as [Hc' _]. eauto.
Qed.

Lemma std_move_backward_ok (n : nat) :
  ∀ (p r : buffer) (last d c : Z),
    std_move_backward n p last d = Some r → buffer_ok p c → buffer_ok r c.
Proof.
  induction n as [|n IH]; intros p r last d c Hrun Hc.
  - by injection Hrun as <-.
  - cbn [std_move_backward] in Hrun.
    destruct (load p (last - 1)) as [x|]; [|done].
    cbn [mbind option_bind] in Hrun.
    destruct (store p (d - 1) x) as [p'|] eqn:Hst; [|done].
    cbn [mbind option_bind] in Hrun.
    destruct (store_ok _ _ _ _ _ Hst Hc) as [Hc' _]. eauto.
Qed.

Lemma std_fill_ok (n : nat) :
  ∀ (p r : buffer) (first c : Z) (x : slot),
    std_fill n p first x = Some r → buffer_ok p c → buffer_ok r c.
Proof.
  induction n as [|n IH]; intros p r first c x Hrun Hc.
  - by injection Hrun as <-.
  - cbn [std_fill] in Hrun.
    destruct (store p first x) as [p'|] eqn:Hst; [|done].
    cbn [mbind option_bind] in Hrun.
    destruct (store_ok _ _ _ _ _ Hst Hc) as [Hc' _]. eauto.
Qed.

Lemma new_array_ok (n : Z) : 0 ≤ n → buffer_ok (new_array n) n.
Proof. intros Hn. simpl. rewrite length_replicate. lia. Qed.

(** ** The monad *)

Lemma bind_Return {A B} (m : method A) (k : A → method B) v b v'' :
  bind m k v = Return b v'' →
  ∃ a v', m v = Return a v' ∧ k a v' = Return b v''.
Proof. unfold bind. destruct (m v); [eauto|done..]. Qed.

Lemma access_Return {A} (o : option A) (v v' : SimpleVector) (a : A) :
  access o v = Return a v' → o = Some a ∧ v' = v.
Proof. unfold access. destruct o; [|done]. by intros [= -> ->]. Qed.

Lemma wrap_small (x : Z) : 0 ≤ x ≤ SIZE_MAX → wrap x = x.
Proof. unfold wrap, SIZE_MAX. intros Hx. apply Z.mod_small. lia. Qed.

Lemma range_count_le (first last : Z) :
  first ≤ last → range_count first last = Some (Z.to_nat (last - first)).
Proof. intros Hle. unfold range_count. by rewrite (proj2 (Z.ltb_ge _ _)). Qed.

Lemma range_count_gt (first last : Z) :
  last < first → range_count first last = None.
Proof. intros Hgt. unfold range_count. by rewrite (proj2 (Z.ltb_lt _ _)). Qed.

Lemma range_count_Some (first last : Z) (n : nat) :
  range_count first last = Some n → first ≤ last ∧ n = Z.to_nat (last - first).
Proof.
  unfold range_count. destruct (Z.ltb_spec last first); [done|].
  by intros [= <-].
Qed.

Lemma wrap_range (x : Z) : 0 ≤ wrap x ≤ SIZE_MAX.
Proof. unfold wrap, SIZE_MAX. pose proof (Z.mod_pos_bound x (2 ^ 64)). lia. Qed.

(** ** What the modifiers compute *)

Ltac run_method :=
  cbv [bind get set_items set_size set_capacity ret access when throw
       begin_ end_ items_ size_ capacity_].

(** The reallocating branch of [InsertInVector], on the arrays alone. *)
Lemma insert_realloc (l1 l2 : list slot) (r : nat) (x : slot) :
  let items := Some (l1 ++ l2) in
  let tmp := Some (replicate (length l1 + (1 + (length l2 + r))) Indeterminate) in
  (tmp1 ← std_move (length l1) items 0 tmp 0;
   tmp2 ← std_move (length l2) items (Z.of_nat (length l1)) tmp1
            (Z.of_nat (length l1) + 1);
   store tmp2 (Z.of_nat (length l1)) x)
  = Some (Some (l1 ++ x :: l2 ++ replicate r Indeterminate)).
Proof.
  intros items tmp. subst items tmp.
  rewrite !replicate_add.
  pose proof (std_move_middle l1 [] l2 []
    (replicate (length l1) Indeterminate)
    (replicate 1 Indeterminate ++ replicate (length l2) Indeterminate
       ++ replicate r Indeterminate)) as H1.
  cbn [app length] in H1. change (Z.of_nat 0) with 0 in H1.
  rewrite H1 by (by rewrite length_replicate).
  cbn [mbind option_bind]. clear H1.
  pose proof (std_move_middle l2 l1 [] (l1 ++ [Indeterminate])
    (replicate (length l2) Indeterminate) (replicate r Indeterminate)) as H2.
  rewrite length_app, Nat2Z.inj_add in H2. cbn [length] in H2.
  rewrite app_nil_r, <- !(assoc_L (++)) in H2. cbn [app replicate] in H2 |- *.
  change (Z.of_nat 1) with 1 in H2.
  rewrite H2 by (by rewrite length_replicate).
  cbn [mbind option_bind]. apply store_middle.
Qed.

Lemma InsertInVector_full (v : SimpleVector) (pos : Z) (x : T) :
  wf v → size_ v = capacity_ v → 0 ≤ pos ≤ size_ v →
  (if capacity_ v =? 0 then 1 else capacity_ v + capacity_ v) ≤ SIZE_MAX →
  InsertInVector pos x v
  = Return pos
      (mkSimpleVector
         (Some (take (Z.to_nat pos) (slots (items_ v)) ++ Value x ::
                drop (Z.to_nat pos) (slots (items_ v)) ++
                replicate
                  (Z.to_nat ((if capacity_ v =? 0 then 1
                              else capacity_ v + capacity_ v) - size_ v - 1))
                  Indeterminate))
         (size_ v + 1)
         (if capacity_ v =? 0 then 1 else capacity_ v + capacity_ v)).
Proof.
  destruct v as [items sz cap]. unfold wf. cbn [items_ size_ capacity_].
  intros (Hsz & Hcap & Hbuf) -> Hpos Hnew.
  set (c' := if cap =? 0 then 1 else cap + cap) in *.
  assert (Hc' : cap + 1 ≤ c') by (unfold c'; destruct (Z.eqb_spec cap 0); lia).
  set (l := slots items).
  assert (Hl : Z.of_nat (length l) = cap).
  { unfold l. destruct items; simpl in *; lia. }
  set (l1 := take (Z.to_nat pos) l). set (l2 := drop (Z.to_nat pos) l).
  assert (Hl1 : Z.of_nat (length l1) = pos) by (unfold l1; rewrite length_take; lia).
  assert (Hl2 : Z.of_nat (length l2) = cap - pos) by (unfold l2; rewrite length_drop; lia).
  pose proof (insert_realloc l1 l2 (Z.to_nat (c' - cap - 1)) (Value x)) as Hrun.
  cbv zeta in Hrun.
  unfold InsertInVector. rewrite (wrap_small pos) by lia.
  run_method. rewrite Z.ltb_irrefl.
  rewrite (range_count_le pos cap) by lia.
  rewrite (wrap_small (cap + cap)) by (unfold c' in Hnew; destruct (Z.eqb_spec cap 0); lia).
  fold c'.
  assert (Hmoves :
    ∀ items0, slots items0 = l →
      (tmp1 ← std_move (Z.to_nat pos) items0 0 (new_array c') 0;
       tmp2 ← std_move (Z.to_nat (cap - pos)) items0 pos tmp1 (pos + 1);
       store tmp2 pos (Value x))
      = Some (Some (l1 ++ Value x :: l2 ++ replicate (Z.to_nat (c' - cap - 1)) Indeterminate))).
  { intros items0 Hitems0. unfold new_array.
    replace (Z.to_nat c') with
      (length l1 + (1 + (length l2 + Z.to_nat (c' - cap - 1))))%nat by lia.
    replace (Z.to_nat pos) with (length l1) by lia.
    replace (Z.to_nat (cap - pos)) with (length l2) by lia.
    rewrite <- Hl1.
    destruct items0 as [l0|].
    - simpl in Hitems0. subst l0. unfold l1, l2 in *. rewrite take_drop in Hrun.
      exact Hrun.
    - simpl in Hitems0. unfold l1, l2. rewrite <- Hitems0.
      rewrite take_nil, drop_nil. done. }
  specialize (Hmoves items eq_refl).
  destruct (std_move (Z.to_nat pos) items 0 (new_array c') 0) as [tmp1|];
    [|discriminate Hmoves].
  cbn [mbind option_bind] in Hmoves.
  destruct (std_move (Z.to_nat (cap - pos)) items pos tmp1 (pos + 1)) as [tmp2|];
    [|discriminate Hmoves].
  cbn [mbind option_bind] in Hmoves.
  rewrite Hmoves.
  rewrite (wrap_small (cap + 1)) by lia.
  done.
Qed.

Lemma InsertInVector_spare (v : SimpleVector) (pos : Z) (x : T) (l : list slot) :
  items_ v = Some l → Z.of_nat (length l) = capacity_ v →
  capacity_ v ≤ SIZE_MAX → size_ v < capacity_ v → 0 ≤ pos ≤ size_ v →
  InsertInVector pos x v
  = Return pos
      (mkSimpleVector (Some (<[Z.to_nat pos := Value x]> l))
         (size_ v + 1) (capacity_ v)).
Proof.
  destruct v as [items sz cap]. cbn [items_ size_ capacity_].
  intros -> Hl Hcap Hsz Hpos.
  unfold InsertInVector. rewrite (wrap_small pos) by lia.
  run_method. rewrite (proj2 (Z.ltb_lt sz cap)) by done.
  rewrite (range_count_le pos sz) by lia.
  rewrite std_move_backward_self by lia.
  rewrite store_in_range by lia.
  rewrite (wrap_small (sz + 1)) by lia.
  done.
Qed.

Lemma Reserve_noop (v : SimpleVector) (new_capacity : Z) :
  new_capacity ≤ capacity_ v → Reserve new_capacity v = Return tt v.
Proof.
  intros Hn. unfold Reserve. run_method.
  by rewrite (proj2 (Z.ltb_ge _ _)) by done.
Qed.

Lemma Reserve_grow (v : SimpleVector) (new_capacity : Z) :
  wf v → capacity_ v < new_capacity →
  Reserve new_capacity v
  = Return tt
      (mkSimpleVector
         (Some (elements v ++
                replicate (Z.to_nat (new_capacity - size_ v)) Indeterminate))
         (size_ v) new_capacity).
Proof.
  destruct v as [items sz cap]. unfold wf, elements. cbn [items_ size_ capacity_].
  intros (Hsz & Hcap & Hbuf) Hn.
  unfold Reserve. run_method. rewrite (proj2 (Z.ltb_lt _ _)) by done.
  destruct items as [l|].
  - unfold new_array. rewrite std_move_take_drop; [|lia|lia|lia|].
    2: { rewrite length_replicate. lia. }
    change (Z.to_nat 0) with 0%nat. rewrite drop_0, take_0. cbn [app Nat.add].
    rewrite drop_replicate.
    by replace (Z.to_nat new_capacity - Z.to_nat sz)%nat
      with (Z.to_nat (new_capacity - sz)) by lia.
  - assert (sz = 0) as -> by lia. cbn. by rewrite Z.sub_0_r.
Qed.

Lemma Resize_within (v : SimpleVector) (new_size : Z) :
  new_size ≤ capacity_ v →
  Resize new_size v
  = Return tt (mkSimpleVector (items_ v) new_size (capacity_ v)).
Proof.
  intros Hn. unfold Resize. run_method.
  by rewrite (proj2 (Z.ltb_ge _ _)) by done.
Qed.

Lemma Resize_grow (v : SimpleVector) (new_size : Z) :
  wf v → capacity_ v < new_size →
  Resize new_size v
  = Return tt
      (mkSimpleVector
         (Some (elements v ++
                replicate (Z.to_nat (new_size - size_ v)) (Value T_default) ++
                replicate
                  (Z.to_nat (Z.max new_size (wrap (size_ v * 2)) - new_size))
                  Indeterminate))
         new_size
         (Z.max new_size (wrap (size_ v * 2)))).
Proof.
  destruct v as [items sz cap]. unfold wf, elements. cbn [items_ size_ capacity_].
  intros (Hsz & Hcap & Hbuf) Hn.
  unfold Resize. run_method. rewrite (proj2 (Z.ltb_lt _ _)) by done.
  set (c' := Z.max new_size (wrap (sz * 2))).
  assert (Hc' : new_size ≤ c') by lia.
  pose proof (std_fill_middle
    (replicate (Z.to_nat (new_size - sz)) Indeterminate)
    (take (Z.to_nat sz) (slots items))
    (replicate (Z.to_nat (c' - new_size)) Indeterminate) (Value T_default)) as Hfill.
  rewrite length_replicate in Hfill.
  assert (Htake : Z.of_nat (length (take (Z.to_nat sz) (slots items))) = sz).
  { rewrite length_take. destruct items; simpl in *; lia. }
  rewrite Htake in Hfill.
  assert (Hmove :
    std_move (Z.to_nat sz) items 0 (new_array c') 0
    = Some (Some (take (Z.to_nat sz) (slots items) ++
                  replicate (Z.to_nat (new_size - sz)) Indeterminate ++
                  replicate (Z.to_nat (c' - new_size)) Indeterminate))).
  { rewrite <- replicate_add. destruct items as [l|].
    - unfold new_array. rewrite std_move_take_drop; [|lia|lia|lia|].
      2: { rewrite length_replicate. lia. }
      change (Z.to_nat 0) with 0%nat. rewrite drop_0, take_0.
      cbn [app Nat.add slots default].
      rewrite drop_replicate. do 4 f_equal. lia.
    - assert (sz = 0) as -> by lia. unfold new_array.
      replace (Z.to_nat c')
        with (Z.to_nat (new_size - 0) + Z.to_nat (c' - new_size))%nat by lia.
      reflexivity. }
  rewrite Hmove, (range_count_le sz new_size), Hfill by lia.
  destruct items; [done|]. cbn [slots default]. by rewrite take_nil.
Qed.

Lemma Erase_spec (v : SimpleVector) (pos : Z) :
  wf v → 0 ≤ pos < size_ v →
  ∃ l', Erase pos v
        = Return pos (mkSimpleVector (Some l') (size_ v - 1) (capacity_ v)) ∧
        Z.of_nat (length l') = capacity_ v ∧
        take (Z.to_nat (size_ v - 1)) l'
        = take (Z.to_nat pos) (elements v) ++ drop (S (Z.to_nat pos)) (elements v).
Proof.
  destruct v as [items sz cap]. unfold wf, elements. cbn [items_ size_ capacity_].
  intros (Hsz & Hcap & Hbuf) Hpos.
  destruct items as [l|]; [|lia].
  set (a := take (Z.to_nat pos) l).
  assert (Ha : Z.of_nat (length a) = pos) by (unfold a; rewrite length_take; lia).
  destruct (drop (Z.to_nat pos) l) as [|y rest] eqn:Hdrop.
  { apply (f_equal length) in Hdrop. rewrite length_drop in Hdrop. simpl in Hdrop. lia. }
  assert (Hrest : Z.of_nat (length rest) = cap - pos - 1).
  { apply (f_equal length) in Hdrop. rewrite length_drop in Hdrop. simpl in Hdrop. lia. }
  set (n := Z.to_nat (sz - (pos + 1))).
  set (xs := take n rest). set (b := drop n rest).
  assert (Hxs : length xs = n) by (unfold xs; rewrite length_take; lia).
  assert (El : l = a ++ y :: xs ++ b).
  { unfold a, xs, b. rewrite take_drop, <- Hdrop. by rewrite take_drop. }
  exists (a ++ xs ++ default y (last (y :: xs)) :: b).
  split_and!.
  - unfold Erase. run_method. change (0 + sz) with sz.
    rewrite (range_count_le (pos + 1) sz) by lia.
    fold n. rewrite El at 1. rewrite <- Hxs at 1. rewrite <- Ha at 1 2.
    rewrite std_move_within_shift.
    by rewrite (wrap_small (sz - 1)) by lia.
  - rewrite <- Hbuf, El. rewrite !length_app. simpl. rewrite !length_app. simpl. lia.
  - assert (Etake : take (Z.to_nat sz) l = a ++ y :: xs).
    { rewrite El. rewrite take_app_ge by lia.
      replace (Z.to_nat sz - length a)%nat with (S (length xs)) by lia.
      cbn [take]. by rewrite take_app_length. }
    rewrite Etake.
    rewrite (assoc_L (++)). rewrite take_app_length' by (rewrite length_app; lia).
    rewrite take_app_length' by lia.
    replace (S (Z.to_nat pos)) with (length (a ++ [y])) by (rewrite length_app; simpl; lia).
    replace (a ++ y :: xs) with ((a ++ [y]) ++ xs) by (by rewrite <- (assoc_L (++))).
    by rewrite drop_app_length.
Qed.

(** ** The invariant is kept by every operation *)

Ltac run_method_in H :=
  cbv [bind get set_items set_size set_capacity ret access when throw
       begin_ end_ items_ size_ capacity_] in H.

(** Splits a successful run at each memory access. *)
Ltac split_run H :=
  run_method_in H;
  repeat match type of H with
         | context [match ?o with Some _ => _ | None => _ end] =>
             let E := fresh "Hmem" in
             destruct o eqn:E; cbv beta iota in H; [|discriminate H]
         end.

Lemma wf_default : wf SimpleVector_default.
Proof. unfold wf, SIZE_MAX. simpl. lia. Qed.

Lemma wf_reserve (n : Z) :
  0 ≤ n ≤ SIZE_MAX → wf (SimpleVector_reserve (Reserve_proxy n) : SimpleVector).
Proof.
  intros Hn. unfold wf. cbn [SimpleVector_reserve Reserve_proxy GetReserve
    reserve_ items_ size_ capacity_].
  split_and!; try lia. apply new_array_ok. lia.
Qed.

Lemma wf_fill (size : Z) (value : T) (v : SimpleVector) :
  0 ≤ size ≤ SIZE_MAX → SimpleVector_fill size value = Return tt v → wf v.
Proof.
  intros Hn Hrun. unfold SimpleVector_fill in Hrun.
  destruct (Z.eqb_spec size 0) as [->|Hne].
  - injection Hrun as <-. apply wf_default.
  - split_run Hrun. injection Hrun as <-.
    unfold wf. cbn [items_ size_ capacity_]. split_and!; try lia.
    eapply std_fill_ok; [done|]. apply new_array_ok. lia.
Qed.

Lemma wf_init (init : list T) (v : SimpleVector) :
  Z.of_nat (length init) ≤ SIZE_MAX → SimpleVector_init init = Return tt v → wf v.
Proof.
  intros Hn Hrun. unfold SimpleVector_init in Hrun. cbv zeta in Hrun.
  destruct (Z.eqb_spec (Z.of_nat (length init)) 0) as [E|Hne].
  - injection Hrun as <-. rewrite E. apply wf_default.
  - split_run Hrun. injection Hrun as <-.
    unfold wf. cbn [items_ size_ capacity_]. split_and!; try lia.
    eapply std_move_ok; [done|]. apply new_array_ok. lia.
Qed.

Lemma wf_copy (other v : SimpleVector) :
  wf other → SimpleVector_copy other = Return tt v → wf v.
Proof.
  destruct other as [items sz cap]. unfold wf at 1. cbn [items_ size_ capacity_].
  intros (Hsz & Hcap & Hbuf) Hrun. unfold SimpleVector_copy in Hrun.
  split_run Hrun. injection Hrun as <-.
  unfold wf. cbn [items_ size_ capacity_]. split_and!; try lia.
  eapply std_move_ok; [done|]. apply new_array_ok. lia.
Qed.

Lemma wf_assign_copy (same : bool) (this rhs v : SimpleVector) :
  wf this → wf rhs → assign_copy same rhs this = Return tt v → wf v.
Proof.
  intros Hthis Hrhs Hrun. unfold assign_copy in Hrun.
  destruct same; [by injection Hrun as <-|].
  destruct this as [items sz cap]. run_method_in Hrun.
  fold (size_ rhs) in Hrun.
  destruct (Z.leb_spec (size_ rhs) cap) as [Hfit|Hbig].
  - destruct rhs as [ritems rsz rcap]. split_run Hrun. injection Hrun as <-.
    destruct Hthis as (Hsz & Hcap & Hbuf), Hrhs as (Hsz' & _).
    unfold wf in *. cbn [items_ size_ capacity_] in *. split_and!; try lia.
    eapply std_move_ok; done.
  - destruct (SimpleVector_copy rhs) as [[] tmp| | |] eqn:Hcopy; try done.
    injection Hrun as <-. destruct tmp. by apply (wf_copy _ _ Hrhs) in Hcopy.
Qed.

Lemma wf_subscript_assign (index : Z) (value : T) (this v : SimpleVector) :
  wf this → subscript_assign index value this = Return tt v → wf v.
Proof.
  destruct this as [items sz cap]. unfold wf at 1. cbn [items_ size_ capacity_].
  intros (Hsz & Hcap & Hbuf) Hrun. unfold subscript_assign in Hrun.
  split_run Hrun. injection Hrun as <-.
  unfold wf. cbn [items_ size_ capacity_]. split_and!; try lia.
  by eapply store_ok.
Qed.

Lemma At_state (index : Z) (this v : SimpleVector) :
  (∃ a, At index this = Return a v) ∨ (∃ e, At index this = Throw e v) →
  v = this.
Proof.
  destruct this as [items sz cap]. unfold At. run_method.
  destruct (index >=? sz); destruct (load items index);
    intros [[? Hrun]|[? Hrun]]; congruence.
Qed.

Lemma wf_Resize (new_size : Z) (this v : SimpleVector) :
  wf this → 0 ≤ new_size ≤ SIZE_MAX →
  Resize new_size this = Return tt v → wf v.
Proof.
  intros Hwf Hn Hrun.
  destruct (Z.le_gt_cases new_size (capacity_ this)) as [Hle|Hgt].
  - rewrite Resize_within in Hrun by done. injection Hrun as <-.
    destruct Hwf as (Hsz & Hcap & Hbuf). unfold wf.
    cbn [items_ size_ capacity_]. split_and!; try lia; done.
  - rewrite Resize_grow in Hrun by done. injection Hrun as <-.
    destruct Hwf as (Hsz & Hcap & Hbuf). unfold wf, elements.
    cbn [items_ size_ capacity_].
    pose proof (wrap_range (size_ this * 2)).
    split_and!; try lia.
    rewrite !length_app, !length_replicate.
    destruct (items_ this) as [l|]; [rewrite length_take|simpl]; lia.
Qed.

Lemma wf_Reserve (new_capacity : Z) (this v : SimpleVector) :
  wf this → 0 ≤ new_capacity ≤ SIZE_MAX →
  Reserve new_capacity this = Return tt v → wf v.
Proof.
  intros Hwf Hn Hrun.
  destruct (Z.le_gt_cases new_capacity (capacity_ this)) as [Hle|Hgt].
  - rewrite Reserve_noop in Hrun by done. by injection Hrun as <-.
  - rewrite Reserve_grow in Hrun by done. injection Hrun as <-.
    destruct Hwf as (Hsz & Hcap & Hbuf). unfold wf, elements.
    cbn [items_ size_ capacity_]. split_and!; try lia.
    rewrite !length_app, !length_replicate.
    destruct (items_ this) as [l|]; [rewrite length_take|simpl]; lia.
Qed.

(** A returning [InsertInVector] keeps the invariant, and on a full vector
    it returns only if doubling the capacity did not wrap. *)
Lemma InsertInVector_returns (pos : Z) (value : T) (this v : SimpleVector) (it : Z) :
  wf this → 0 ≤ pos ≤ size_ this →
  InsertInVector pos value this = Return it v →
  wf v ∧
  (size_ this < capacity_ this ∨ capacity_ this + capacity_ this ≤ SIZE_MAX).
Proof.
  destruct this as [items sz cap]. unfold wf at 1. cbn [items_ size_ capacity_].
  intros (Hsz & Hcap & Hbuf) Hpos Hrun.
  unfold InsertInVector in Hrun. rewrite (wrap_small pos) in Hrun by lia.
  run_method_in Hrun.
  rewrite (range_count_le pos sz) in Hrun by lia. cbv beta iota in Hrun.
  destruct (Z.ltb_spec sz cap) as [Hspare|Hfull].
  - split_run Hrun. injection Hrun as <- <-.
    destruct (store_ok _ _ _ _ cap Hmem0) as [Hb _].
    { by eapply std_move_backward_ok. }
    split; [|by left]. unfold wf. cbn [items_ size_ capacity_].
    rewrite (wrap_small (sz + 1)) by lia. split_and!; try lia; done.
  - assert (sz = cap) as -> by lia.
    set (c' := if cap =? 0 then 1 else wrap (cap + cap)) in *.
    assert (Hc' : 0 ≤ c' ≤ SIZE_MAX).
    { unfold c'. pose proof (wrap_range (cap + cap)).
      destruct (cap =? 0); unfold SIZE_MAX in *; lia. }
    split_run Hrun. injection Hrun as <- <-.
    destruct (std_move_ok _ _ _ _ _ _ c' Hmem) as [Hb1 _].
    { apply new_array_ok. lia. }
    destruct (std_move_ok _ _ _ _ _ _ c' Hmem0 Hb1) as [Hb2 Hn2].
    destruct (store_ok _ _ _ _ c' Hmem1 Hb2) as [Hb3 Hst].
    assert (Hroom : cap + 1 ≤ c').
    { destruct (decide (pos = cap)) as [->|Hne]; [lia|].
      assert (Z.to_nat (cap - pos) ≠ 0%nat) as Hn by lia.
      specialize (Hn2 Hn). lia. }
    split.
    + unfold wf. cbn [items_ size_ capacity_].
      rewrite (wrap_small (cap + 1)) by lia. split_and!; try lia; done.
    + right. unfold c' in Hroom. destruct (Z.eqb_spec cap 0) as [->|Hne].
      * by vm_compute.
      * destruct (Z.le_gt_cases (cap + cap) SIZE_MAX) as [|Hwrap]; [done|].
        exfalso. unfold wrap, SIZE_MAX in *.
        assert ((cap + cap) mod 2 ^ 64 = cap + cap - 2 ^ 64); [|lia].
        symmetry. apply (Z.mod_unique _ _ 1); lia.
Qed.

Lemma wf_InsertInVector (pos : Z) (value : T) (this v : SimpleVector) (it : Z) :
  wf this → 0 ≤ pos ≤ size_ this →
  InsertInVector pos value this = Return it v → wf v.
Proof. intros Hwf Hpos Hrun. by eapply InsertInVector_returns. Qed.

Lemma PushBack_returns (item : T) (this v : SimpleVector) :
  wf this → PushBack item this = Return tt v →
  wf v ∧
  (size_ this < capacity_ this ∨ capacity_ this + capacity_ this ≤ SIZE_MAX).
Proof.
  destruct this as [items sz cap].
  intros Hwf Hrun. unfold PushBack in Hrun.
  apply bind_Return in Hrun as (e & this' & He & Hrun).
  apply bind_Return in Hrun as (it & v' & Hins & Hrun).
  run_method_in He. injection He as <- <-.
  injection Hrun as <-.
  eapply InsertInVector_returns; [exact Hwf| |exact Hins].
  destruct Hwf as (? & _). cbn [items_ size_ capacity_] in *. lia.
Qed.

Lemma wf_PushBack (item : T) (this v : SimpleVector) :
  wf this → PushBack item this = Return tt v → wf v.
Proof. intros Hwf Hrun. by eapply PushBack_returns. Qed.

Lemma wf_PopBack (this v : SimpleVector) :
  wf this → PopBack this = Return tt v → wf v.
Proof.
  destruct this as [items sz cap]. unfold wf at 1. cbn [items_ size_ capacity_].
  intros (Hsz & Hcap & Hbuf) Hrun. unfold PopBack in Hrun. run_method_in Hrun.
  destruct (Z.eqb_spec sz 0) as [|Hne]; [done|].
  injection Hrun as <-. unfold wf. cbn [items_ size_ capacity_].
  rewrite wrap_small by lia. split_and!; try lia; done.
Qed.

Lemma wf_Erase (pos : Z) (this v : SimpleVector) (it : Z) :
  wf this → 0 ≤ pos < size_ this → Erase pos this = Return it v → wf v.
Proof.
  intros Hwf Hpos Hrun.
  destruct (Erase_spec this pos Hwf Hpos) as (l' & Hrun' & Hlen & _).
  rewrite Hrun' in Hrun. injection Hrun as _ <-.
  destruct Hwf as (Hsz & Hcap & Hbuf). unfold wf. cbn [items_ size_ capacity_].
  split_and!; try lia; done.
Qed.

(** A failed allocation in [Reserve] or in the copy assignment leaves the
    object as it was. *)
Lemma Reserve_bad_alloc_state (new_capacity : Z) (v v' : SimpleVector)
    (e : exception) :
  Reserve_bad_alloc new_capacity v = Throw e v' → e = bad_alloc ∧ v' = v.
Proof.
  destruct v as [items sz cap]. unfold Reserve_bad_alloc. run_method.
  destruct (cap <? new_capacity); [|done]. by intros [= <- <-].
Qed.

Lemma assign_copy_bad_alloc_state (same : bool) (rhs v v' : SimpleVector)
    (e : exception) :
  assign_copy_bad_alloc same rhs v = Throw e v' → e = bad_alloc ∧ v' = v.
Proof.
  destruct v as [items sz cap], rhs as [ritems rsz rcap].
  unfold assign_copy_bad_alloc.
  destruct same; [done|]. run_method.
  destruct (rsz <=? cap); [|by intros [= <- <-]].
  by destruct (std_move _ _ _ _ _).
Qed.

(** Every reachable state satisfies [wf]. *)
Lemma reachable_wf (v : SimpleVector) : reachable v → wf v.
Proof.
  induction 1 as
    [ | n Hn | size value v Hn Hrun | init v Hn Hrun | other v _ IH Hrun
    | other _ IH | other _ IH
    | same this rhs v _ IHt _ IHr _ Hrun
    | same this rhs _ IHt _ IHr _ | same this rhs _ IHt _ IHr _
    | this other _ IHt _ IHo | this other _ IHt _ IHo
    | index value this v _ IH _ Hrun
    | index this r v _ IH Hrun
    | this v _ IH Hrun
    | new_size this v _ IH Hn Hrun
    | new_capacity this v _ IH Hn Hrun
    | item this v _ IH Hrun
    | this v _ IH _ Hrun
    | pos value this it v _ IH Hpos Hrun
    | pos this it v _ IH Hpos Hrun
    | new_capacity this e v _ IH _ Hrun
    | same this rhs e v _ IH _ _ _ Hrun ].
  - apply wf_default.
  - by apply wf_reserve.
  - by eapply wf_fill.
  - by eapply wf_init.
  - by eapply wf_copy.
  - by destruct other.
  - apply wf_default.
  - eapply wf_assign_copy; [exact IHt|exact IHr|exact Hrun].
  - destruct same; [done|by destruct rhs].
  - destruct same; [done|apply wf_default].
  - by destruct other.
  - by destruct this.
  - by eapply wf_subscript_assign.
  - assert (v = this) as ->; [|done].
    apply (At_state index). destruct Hrun; eauto.
  - injection Hrun as <-. destruct IH as (? & ? & ?). unfold wf.
    cbn [items_ size_ capacity_]. split_and!; try lia; done.
  - by eapply wf_Resize.
  - by eapply wf_Reserve.
  - by eapply wf_PushBack.
  - by eapply wf_PopBack.
  - by eapply wf_InsertInVector.
  - by eapply wf_Erase.
  - by apply Reserve_bad_alloc_state in Hrun as [_ ->].
  - by apply assign_copy_bad_alloc_state in Hrun as [_ ->].
Qed.

Lemma length_elements (v : SimpleVector) :
  wf v → length (elements v) = Z.to_nat (size_ v).
Proof.
  intros (Hsz & Hcap & Hbuf). unfold elements.
  destruct (items_ v) as [l|]; [rewrite length_take|simpl]; lia.
Qed.

Lemma elements_slots (v : SimpleVector) :
  elements v = take (Z.to_nat (size_ v)) (slots (items_ v)).
Proof.
  unfold elements. destruct (items_ v); [done|].
  cbn [slots default]. by rewrite take_nil.
Qed.

Lemma elements_mk (l1 l2 : list slot) (n c : Z) :
  Z.to_nat n = length l1 → elements (mkSimpleVector (Some (l1 ++ l2)) n c) = l1.
Proof.
  intros Hn. unfold elements. cbn [items_ size_].
  by rewrite Hn, take_app_length.
Qed.

(** [PushBack] on a vector with a free slot, or one whose capacity can
    still double. *)
Lemma PushBack_spec (v : SimpleVector) (x : T) :
  wf v →
  size_ v < capacity_ v ∨ capacity_ v + capacity_ v ≤ SIZE_MAX →
  ∃ v', PushBack x v = Return tt v' ∧ wf v' ∧
        size_ v' = size_ v + 1 ∧
        capacity_ v'
        = (if size_ v <? capacity_ v then capacity_ v
           else if capacity_ v =? 0 then 1 else capacity_ v + capacity_ v) ∧
        elements v' = elements v ++ [Value x].
Proof.
  intros Hwf Hroom.
  assert (Hshape :
    ∃ v', PushBack x v = Return tt v' ∧
          size_ v' = size_ v + 1 ∧
          capacity_ v'
          = (if size_ v <? capacity_ v then capacity_ v
             else if capacity_ v =? 0 then 1 else capacity_ v + capacity_ v) ∧
          elements v' = elements v ++ [Value x]).
  { pose proof (length_elements v Hwf) as Hlen.
    destruct v as [items sz cap]. destruct Hwf as (Hsz & Hcap & Hbuf).
    cbn [items_ size_ capacity_] in *.
    unfold PushBack. run_method. rewrite Z.add_0_l.
    destruct (Z.ltb_spec sz cap) as [Hspare|Hfull].
    - destruct items as [l|]; [|lia].
      rewrite (InsertInVector_spare _ sz x l) by (cbn; first [done|lia]).
      eexists. split; [reflexivity|]. cbn [items_ size_ capacity_].
      split_and!; try done.
      unfold elements. cbn [items_ size_].
      replace (Z.to_nat (sz + 1)) with (S (Z.to_nat sz)) by lia.
      erewrite take_S_r by (apply list_lookup_insert_eq; lia).
      by rewrite take_insert_ge by lia.
    - assert (sz = cap) as -> by lia.
      assert (Hnew : (if cap =? 0 then 1 else cap + cap) ≤ SIZE_MAX).
      { destruct (cap =? 0); unfold SIZE_MAX in *; lia. }
      rewrite (InsertInVector_full _ cap x) by (cbn; first [done|lia]).
      eexists. split; [reflexivity|]. cbn [items_ size_ capacity_].
      split_and!; try done.
      assert (Hl : length (slots items) = Z.to_nat cap).
      { destruct items; simpl in *; lia. }
      replace (elements {| items_ := items; size_ := cap; capacity_ := cap |})
        with (slots items).
      2: { unfold elements. cbn [items_ size_]. destruct items as [l|]; [|done].
           simpl in *. by rewrite take_ge by lia. }
      rewrite take_ge, drop_ge by lia.
      cbn [app]. rewrite cons_middle, (assoc_L (++)).
      apply elements_mk. rewrite length_app. simpl. lia. }
  destruct Hshape as (v' & Hrun & Hrest).
  exists v'. split; [done|]. split; [by eapply wf_PushBack|done].
Qed.

(** One [PushBack] keeps the capacity a power of two that the size has
    passed the half of. *)
Lemma growth_step (v v1 : SimpleVector) (j : Z) :
  wf v → 0 ≤ j → capacity_ v = 2 ^ j → 2 ^ (j - 1) < size_ v →
  size_ v1 = size_ v + 1 →
  capacity_ v1
  = (if size_ v <? capacity_ v then capacity_ v
     else if capacity_ v =? 0 then 1 else capacity_ v + capacity_ v) →
  ∃ j1, 0 ≤ j1 ∧ capacity_ v1 = 2 ^ j1 ∧ 2 ^ (j1 - 1) < size_ v1 ≤ 2 ^ j1.
Proof.
  intros (Hsz & _) Hj Hcap Hhalf Hsz1 Hcap1.
  destruct (Z.ltb_spec (size_ v) (capacity_ v)) as [Hspare|Hfull].
  - exists j. rewrite Hcap1, Hsz1. split_and!; [done|done|lia|lia].
  - assert (size_ v = 2 ^ j) as Hfull' by lia.
    assert (0 < 2 ^ j) by (apply Z.pow_pos_nonneg; lia).
    exists (j + 1). rewrite Hcap1, Hsz1, Hcap.
    rewrite (proj2 (Z.eqb_neq _ _)) by lia.
    replace (j + 1 - 1) with j by lia.
    rewrite Z.pow_add_r by lia. lia.
Qed.

(** A run of [PushBack]s returns as long as the size stays within [2^63]. *)
Lemma push_all_returns (xs : list T) :
  ∀ v : SimpleVector,
    wf v → size_ v + Z.of_nat (length xs) ≤ 2 ^ 63 →
    ∃ v', push_all xs v = Return tt v'.
Proof.
  induction xs as [|x xs IH]; intros v Hwf Hbound; [by exists v|].
  cbn [length] in Hbound.
  destruct (PushBack_spec v x Hwf) as (v1 & Hrun & Hwf1 & Hsz1 & _).
  { destruct Hwf as (Hsz & _). unfold SIZE_MAX.
    destruct (decide (size_ v < capacity_ v)); [by left|right]. lia. }
  destruct (IH v1 Hwf1) as (v' & Hrun'); [lia|].
  exists v'. cbn [push_all]. unfold bind. by rewrite Hrun.
Qed.

(** Sizes and capacities after a run of [PushBack]s that returned. *)
Lemma push_all_growth (xs : list T) :
  ∀ (v v' : SimpleVector) (j : Z),
    wf v → 0 ≤ j → capacity_ v = 2 ^ j → 2 ^ (j - 1) < size_ v ≤ 2 ^ j →
    push_all xs v = Return tt v' →
    size_ v' = size_ v + Z.of_nat (length xs) ∧
    ∃ j', 0 ≤ j' ∧ capacity_ v' = 2 ^ j' ∧ 2 ^ (j' - 1) < size_ v' ≤ 2 ^ j'.
Proof.
  induction xs as [|x xs IH]; intros v v' j Hwf Hj Hcap Hhalf Hrun.
  - injection Hrun as <-. cbn [length]. split; [lia|]. by exists j.
  - cbn [push_all] in Hrun.
    apply bind_Return in Hrun as ([] & v1 & Hpush & Hrun).
    destruct (PushBack_returns _ _ _ Hwf Hpush) as [_ Hroom].
    destruct (PushBack_spec v x Hwf Hroom) as (v1' & Hpush' & Hwf1 & Hsz1 & Hcap1 & _).
    assert (v1' = v1) as -> by congruence.
    destruct (growth_step v v1 j) as (j1 & Hj1 & Hcapj1 & Hhalf1);
      [done|done|done|lia|done|done|].
    destruct (IH v1 v' j1 Hwf1 Hj1 Hcapj1 Hhalf1 Hrun) as (Hsz' & Hrest).
    split; [cbn [length]; lia|done].
Qed.

(** ** The claims *)

(** C5, as amended: in every state reached from a constructor by public
    operations called with their preconditions met, a failed allocation
    inside [Resize], [PushBack] or [Insert] apart, [0 <= size <= capacity],
    and an absent buffer has capacity 0.  (The converse fails: a present
    buffer may have capacity 0.  The calls left out write [capacity_]
    before they allocate, and after the throw the capacity no longer
    describes the buffer: [bad_alloc_breaks_invariant].) *)
Theorem reachable_size_capacity (v : SimpleVector) :
  reachable v →
  0 ≤ size_ v ≤ capacity_ v ∧ (items_ v = None → capacity_ v = 0).
Proof.
  intros (Hsz & _ & Hbuf)%reachable_wf. split; [done|].
  intros Hnull. by rewrite Hnull in Hbuf.
Qed.

(** C6: [Resize(new_size)] with [new_size <= capacity] sets [size_] and
    leaves [capacity_] and the whole buffer as they were, so the slots it
    exposes keep their old contents; the over-capacity path instead fills
    the slots [[old_size, new_size)] with [Type{}]. *)
Theorem Resize_within_capacity (v : SimpleVector) (new_size : Z) :
  (new_size ≤ capacity_ v →
   Resize new_size v
   = Return tt (mkSimpleVector (items_ v) new_size (capacity_ v))) ∧
  (wf v → capacity_ v < new_size →
   ∃ v', Resize new_size v = Return tt v' ∧ size_ v' = new_size ∧
         take (Z.to_nat (size_ v)) (elements v') = elements v ∧
         drop (Z.to_nat (size_ v)) (elements v')
         = replicate (Z.to_nat (new_size - size_ v)) (Value T_default)).
Proof.
  split; [apply Resize_within|].
  intros Hwf Hgt. eexists. split; [by apply Resize_grow|].
  pose proof (length_elements v Hwf) as Hlen.
  destruct Hwf as (Hsz & Hcap & Hbuf).
  rewrite (assoc_L (++)), elements_mk
    by (rewrite length_app, length_replicate; lia).
  rewrite <- Hlen. by rewrite take_app_length, drop_app_length.
Qed.

(** C7: [Reserve(new_cap)] with [new_cap <= capacity] changes nothing; with
    [new_cap > capacity] the capacity becomes exactly [new_cap], the size
    is unchanged and the elements keep their values and order; the buffer
    is then a fresh one of exactly [new_cap] slots: the old elements
    first, indeterminate slots after them. *)
Theorem Reserve_spec (v : SimpleVector) (new_capacity : Z) :
  wf v →
  (new_capacity ≤ capacity_ v → Reserve new_capacity v = Return tt v) ∧
  (capacity_ v < new_capacity →
   ∃ v', Reserve new_capacity v = Return tt v' ∧
         capacity_ v' = new_capacity ∧ size_ v' = size_ v ∧
         elements v' = elements v ∧
         ∃ l', items_ v' = Some l' ∧
               Z.of_nat (length l') = new_capacity ∧
               l' = elements v ++
                    replicate (Z.to_nat (new_capacity - size_ v))
                      Indeterminate).
Proof.
  intros Hwf. split; [apply Reserve_noop|].
  intros Hgt. eexists. split; [by apply Reserve_grow|].
  pose proof (length_elements v Hwf) as Hlen.
  destruct Hwf as (Hsz & Hcap & Hbuf).
  cbn [items_ size_ capacity_].
  split_and!; try done.
  - apply elements_mk. by rewrite Hlen.
  - eexists. split_and!; [done| |done].
    rewrite length_app, length_replicate. lia.
Qed.

(** C8: [At(index)] throws [out_of_range] with its message exactly when
    [index >= size], and the object is then as it was; for [index < size]
    it is [operator[]], and it never changes the object. *)
Theorem At_spec (v : SimpleVector) (index : Z) :
  (At index v = Throw (out_of_range "Operation At: Out of range") v
   ↔ size_ v ≤ index) ∧
  (∀ e v', At index v = Throw e v' →
           size_ v ≤ index ∧ e = out_of_range At_message ∧ v' = v) ∧
  (index < size_ v → At index v = subscript index v) ∧
  (∀ x v', At index v = Return x v' → size_ v > index ∧ v' = v).
Proof.
  destruct v as [items sz cap]. unfold At, subscript. run_method.
  destruct (Z.geb_spec index sz) as [Hge|Hlt].
  - split_and!; try done; try lia. by intros e v' [= <- <-].
  - destruct (load items index); split_and!; try done; try lia;
      try (split; [done|lia]).
    all: intros x v' [= <- <-]; split; [lia|done].
Qed.

(** C9: [Clear()] followed by [Resize(s)], [s] the size before, gives back
    the object as it was: same size, same elements in the same order. *)
Theorem Clear_Resize_restores (v : SimpleVector) :
  size_ v ≤ capacity_ v →
  ∃ v', and_then (Clear v) (Resize (size_ v)) = Return tt v' ∧
        size_ v' = size_ v ∧ elements v' = elements v ∧ v' = v.
Proof.
  intros Hsz. exists v. destruct v as [items sz cap].
  cbn [size_ capacity_] in *. split; [|done].
  unfold Clear, set_size, and_then. cbn [items_ size_ capacity_].
  by rewrite Resize_within.
Qed.

(** C10, as amended: [Erase] checks neither emptiness nor the position.
    At a position at or past [end()], on an empty vector at [begin()] in
    particular, it hands [std::move] the range [[pos + 1, end())], whose
    end lies before its start: undefined behaviour, not a return with a
    wrapped size. *)
Theorem Erase_past_end_undefined (v : SimpleVector) (pos : Z) :
  size_ v ≤ pos → Erase pos v = Undefined.
Proof.
  destruct v as [items sz cap]. cbn [size_]. intros Hpos.
  unfold Erase. run_method.
  by rewrite (range_count_gt (pos + 1) (0 + sz)) by lia.
Qed.

(** C4: [k >= 1] consecutive [PushBack]s on a default-constructed vector
    return (for [k] up to [2^63], past which no [size_t] capacity can
    double), and whenever they return the capacity is the smallest power
    of two that is [>= k]; a [PushBack] on a full vector makes the capacity
    1 if it was 0 and twice the old capacity otherwise. *)
Theorem PushBack_growth (xs : list T) (v : SimpleVector) (x : T) :
  (1 ≤ Z.of_nat (length xs) →
   (Z.of_nat (length xs) ≤ 2 ^ 63 →
    ∃ v', push_all xs SimpleVector_default = Return tt v') ∧
   (∀ v', push_all xs SimpleVector_default = Return tt v' →
          size_ v' = Z.of_nat (length xs) ∧
          least_power_of_two_geq (capacity_ v') (Z.of_nat (length xs)))) ∧
  (wf v → size_ v = capacity_ v →
   (capacity_ v + capacity_ v ≤ SIZE_MAX → ∃ v', PushBack x v = Return tt v') ∧
   (∀ v', PushBack x v = Return tt v' →
          capacity_ v' = if capacity_ v =? 0 then 1 else 2 * capacity_ v)).
Proof.
  split.
  - intros Hk. split.
    + intros Hbound. apply push_all_returns; [apply wf_default|].
      cbn [size_ SimpleVector_default]. lia.
    + intros v' Hrun. destruct xs as [|x0 xs]; [simpl in Hk; lia|].
      cbn [push_all] in Hrun.
      apply bind_Return in Hrun as ([] & v1 & Hpush & Hrun).
      destruct (PushBack_spec SimpleVector_default x0 wf_default)
        as (v1' & Hpush' & Hwf1 & Hsz1 & Hcap1 & _).
      { right. by vm_compute. }
      assert (v1' = v1) as -> by congruence.
      cbn in Hsz1, Hcap1.
      destruct (push_all_growth xs v1 v' 0 Hwf1) as (Hsz' & j' & Hj' & Hcap' & Hhalf);
        [lia|done|rewrite Hsz1; by vm_compute|done|].
      split; [cbn [length]; lia|].
      exists j'. split_and!; [done|done|cbn [length]; lia|].
      intros i Hi Hki. rewrite Hcap'. apply Z.pow_le_mono_r; [lia|].
      assert (2 ^ (j' - 1) < 2 ^ i) as Hlt by (cbn [length] in Hki; lia).
      destruct (decide (j' = 0)) as [->|Hne]; [lia|].
      apply Z.pow_lt_mono_r_iff in Hlt; lia.
  - intros Hwf Hfull. split.
    + intros Hdouble.
      destruct (PushBack_spec v x Hwf) as (v' & Hrun & _); [by right|].
      by exists v'.
    + intros v' Hrun.
      destruct (PushBack_returns _ _ _ Hwf Hrun) as [_ Hroom].
      destruct (PushBack_spec v x Hwf Hroom) as (v1 & Hrun1 & _ & _ & Hcap & _).
      assert (v1 = v') as -> by congruence.
      rewrite Hcap, Hfull, Z.ltb_irrefl.
      destruct (capacity_ v =? 0); lia.
Qed.

(** On the reallocating path an [Insert] followed by an [Erase] at the
    same position gives back the sequence. *)
Lemma Insert_Erase_full (v : SimpleVector) (pos : Z) (x : T) :
  wf v → size_ v = capacity_ v → 0 ≤ pos ≤ size_ v →
  (if capacity_ v =? 0 then 1 else capacity_ v + capacity_ v) ≤ SIZE_MAX →
  ∃ v', and_then (Insert pos x v) (Erase pos) = Return pos v' ∧
        same_sequence v' v.
Proof.
  intros Hwf Hfull Hpos Hnew.
  pose proof (InsertInVector_full v pos x Hwf Hfull Hpos Hnew) as Hins.
  pose proof (wf_InsertInVector _ _ _ _ _ Hwf Hpos Hins) as Hwf1.
  unfold Insert, and_then. rewrite Hins.
  match type of Hwf1 with wf ?r => set (v1 := r) in * end.
  destruct (Erase_spec v1 pos Hwf1) as (l' & Hrun & Hlen & Hl');
    [cbn [v1 size_]; lia|].
  rewrite Hrun. eexists. split; [reflexivity|].
  cbn [v1 size_ capacity_] in *.
  assert (Hl : length (slots (items_ v)) = Z.to_nat (size_ v)).
  { destruct Hwf as (? & ? & Hbuf). destruct (items_ v); simpl in *; lia. }
  assert (He : elements v = slots (items_ v)).
  { unfold elements. destruct (items_ v) as [l|]; [|done].
    simpl in *. by rewrite take_ge by lia. }
  assert (He1 : elements v1
                = take (Z.to_nat pos) (slots (items_ v)) ++
                  Value x :: drop (Z.to_nat pos) (slots (items_ v))).
  { unfold v1. rewrite cons_middle, !(assoc_L (++)).
    rewrite elements_mk; [by rewrite <- !(assoc_L (++))|].
    rewrite !length_app, length_take, length_drop. simpl. lia. }
  split; cbn [size_]; [lia|].
  unfold elements at 1. cbn [items_ size_].
  replace (size_ v + 1 - 1) with (size_ v) in Hl' |- * by lia.
  rewrite Hl', He1, He.
  rewrite take_app_length' by (rewrite length_take; lia).
  replace (S (Z.to_nat pos))
    with (length (take (Z.to_nat pos) (slots (items_ v)) ++ [Value x]))
    by (rewrite length_app, length_take; simpl; lia).
  rewrite (cons_middle (Value x) (take (Z.to_nat pos) (slots (items_ v)))
             (drop (Z.to_nat pos) (slots (items_ v)))).
  rewrite (assoc_L (++)), drop_app_length.
  apply take_drop.
Qed.

(** With a free slot [Insert] overwrites the element at [pos] and exposes
    the slot after the last element: nothing is shifted. *)
Lemma Insert_spare_overwrites (v : SimpleVector) (pos : Z) (x : T) (l : list slot) :
  items_ v = Some l → Z.of_nat (length l) = capacity_ v →
  capacity_ v ≤ SIZE_MAX → size_ v < capacity_ v → 0 ≤ pos ≤ size_ v →
  ∃ v', Insert pos x v = Return pos v' ∧ size_ v' = size_ v + 1 ∧
        capacity_ v' = capacity_ v ∧
        elements v'
        = <[Z.to_nat pos := Value x]> (take (Z.to_nat (size_ v + 1)) l).
Proof.
  intros Hitems Hl Hcap Hspare Hpos. unfold Insert.
  rewrite (InsertInVector_spare v pos x l) by done.
  eexists. split; [reflexivity|]. split_and!; try done.
  unfold elements. cbn [items_ size_]. apply take_insert_lt. lia.
Qed.

(** ** [operator==] when its reads are defined *)

Lemma std_equal_true (n : nat) :
  ∀ (a b : buffer) (first1 first2 : Z) (reads : list read),
    std_equal T_equal n a first1 b first2 = (reads, Some true) →
    ∀ i, (i < n)%nat →
      ∃ x y, load a (first1 + Z.of_nat i) = Some (Value x) ∧
             load b (first2 + Z.of_nat i) = Some (Value y) ∧
             T_equal x y = true.
Proof.
  induction n as [|n IH]; intros a b first1 first2 reads Hrun i Hi; [lia|].
  cbn [std_equal] in Hrun.
  destruct (load a first1) as [[|x]|] eqn:Ha; try done;
    destruct (load b first2) as [[|y]|] eqn:Hb; try done.
  cbn [slot_eq] in Hrun. destruct (T_equal x y) eqn:Hxy; [|done].
  destruct (std_equal T_equal n a (first1 + 1) b (first2 + 1))
    as [rest r] eqn:Hrest.
  injection Hrun as _ ->.
  destruct i as [|i].
  - exists x, y. by rewrite !Z.add_0_r.
  - destruct (IH _ _ _ _ _ Hrest i) as (x' & y' & Hx' & Hy' & Hxy'); [lia|].
    exists x', y'. by rewrite Nat2Z.inj_succ, <- !Z.add_1_l, !Z.add_assoc.
Qed.

Lemma std_equal_false (n : nat) :
  ∀ (a b : buffer) (first1 first2 : Z) (reads : list read),
    std_equal T_equal n a first1 b first2 = (reads, Some false) →
    ∃ i x y, (i < n)%nat ∧ T_equal x y = false ∧
      load a (first1 + Z.of_nat i) = Some (Value x) ∧
      load b (first2 + Z.of_nat i) = Some (Value y).
Proof.
  induction n as [|n IH]; intros a b first1 first2 reads Hrun; [done|].
  cbn [std_equal] in Hrun.
  destruct (load a first1) as [[|x]|] eqn:Ha; try done;
    destruct (load b first2) as [[|y]|] eqn:Hb; try done.
  cbn [slot_eq] in Hrun. destruct (T_equal x y) eqn:Hxy.
  - destruct (std_equal T_equal n a (first1 + 1) b (first2 + 1))
      as [rest r] eqn:Hrest.
    injection Hrun as _ ->.
    destruct (IH _ _ _ _ _ Hrest) as (i & x' & y' & Hi & Hne & Hx & Hy).
    exists (S i), x', y'. split_and!; [lia|done|..];
      by rewrite Nat2Z.inj_succ, <- Z.add_1_l, Z.add_assoc.
  - exists 0%nat, x, y. rewrite !Z.add_0_r. split_and!; [lia|done..].
Qed.

Lemma load_elements (v : SimpleVector) (i : nat) (x : slot) :
  (i < Z.to_nat (size_ v))%nat → load (items_ v) (0 + Z.of_nat i) = Some x →
  elements v !! i = Some x.
Proof.
  intros Hi (l & Hitems & Hl & _)%load_inv. unfold elements. rewrite Hitems.
  rewrite lookup_take_lt by done. by rewrite Z.add_0_l, Nat2Z.id in Hl.
Qed.

(** An answer [false] comes from different sizes or from two elements at
    the same index that [Type]'s [operator==] tells apart. *)
Lemma operator_eq_false_differs (a b : SimpleVector) :
  operator_eq T_equal a b = Some false →
  size_ a ≠ size_ b ∨
  ∃ i x y, elements a !! i = Some (Value x) ∧
           elements b !! i = Some (Value y) ∧ T_equal x y = false.
Proof.
  unfold operator_eq, operator_eq_trace.
  destruct (std_equal T_equal (Z.to_nat (size_ a)) (items_ a) 0 (items_ b) 0)
    as [reads [[]|]] eqn:Hrun; cbn [snd]; [|intros _|done].
  - destruct (Z.eqb_spec (size_ a) (size_ b)); [done|]. by left.
  - destruct (Z.eq_dec (size_ a) (size_ b)) as [Hsz|Hsz]; [right|by left].
    destruct (std_equal_false _ _ _ _ _ _ Hrun) as (i & x & y & Hi & Hne & Ha & Hb).
    exists i, x, y. split_and!; [|by apply load_elements; [rewrite <- Hsz|]|done].
    by apply load_elements.
Qed.

(** An answer of [operator==] is the right one. *)
Lemma operator_eq_sound (a b : SimpleVector) :
  (operator_eq T_equal a b = Some true → equal_sequence T_equal a b) ∧
  (operator_eq T_equal a b = Some false → ¬ equal_sequence T_equal a b).
Proof.
  split.
  - unfold operator_eq, operator_eq_trace.
    destruct (std_equal T_equal (Z.to_nat (size_ a)) (items_ a) 0 (items_ b) 0)
      as [reads [[]|]] eqn:Hrun; cbn [snd]; [|done..].
    pose proof (std_equal_true _ _ _ _ _ _ Hrun) as Hall.
    destruct (Z.eqb_spec (size_ a) (size_ b)) as [Hsz|Hsz]; [|done].
    intros _. split; [done|]. apply Forall2_lookup. intros i.
    destruct (decide (i < Z.to_nat (size_ a))%nat) as [Hi|Hi].
    + destruct (Hall i Hi) as (x & y & Ha & Hb & Hxy).
      rewrite (load_elements a i (Value x)) by done.
      rewrite (load_elements b i (Value y)) by (by rewrite <- ?Hsz).
      constructor. cbn [slot_eq]. by rewrite Hxy.
    + unfold elements. rewrite <- Hsz.
      destruct (items_ a), (items_ b); rewrite ?lookup_take_ge by lia;
        rewrite ?lookup_nil; constructor.
  - intros [Hsz|(i & x & y & Ha & Hb & Hxy)]%operator_eq_false_differs
      [Hsz' Hall]; [done|].
    pose proof (Forall2_lookup_lr _ _ _ _ _ _ Hall Ha Hb) as Heq.
    cbn [slot_eq] in Heq. congruence.
Qed.

Lemma std_equal_same (ss ts : list slot) :
  Forall2 (λ s t, slot_eq T_equal s t = Some true) ss ts →
  ∀ (a1 a2 b1 b2 : list slot),
    (std_equal T_equal (length ss)
       (Some (a1 ++ ss ++ a2)) (Z.of_nat (length a1))
       (Some (b1 ++ ts ++ b2)) (Z.of_nat (length b1))).2
    = Some true.
Proof.
  induction 1 as [|s t ss ts Hst _ IH]; intros a1 a2 b1 b2; [done|].
  cbn [length std_equal app].
  rewrite !load_middle, Hst.
  specialize (IH (a1 ++ [s]) a2 (b1 ++ [t]) b2).
  rewrite !length_app in IH. cbn [length] in IH.
  rewrite !Nat2Z.inj_add in IH. rewrite <- !(assoc_L (++)) in IH.
  cbn [app] in IH. change (Z.of_nat 1) with 1 in IH.
  by destruct (std_equal _ _ _ _ _ _).
Qed.

(** Two vectors whose elements are pairwise equal compare equal. *)
Lemma operator_eq_complete (a b : SimpleVector) :
  wf a → wf b → equal_sequence T_equal a b →
  operator_eq T_equal a b = Some true.
Proof.
  intros Hwfa Hwfb [Hsz Hall].
  pose proof (length_elements a Hwfa) as Hla.
  pose proof (length_elements b Hwfb) as Hlb.
  unfold operator_eq, operator_eq_trace. rewrite <- Hla, <- Hsz, Z.eqb_refl.
  assert (Hrun : (std_equal T_equal (length (elements a))
                    (items_ a) 0 (items_ b) 0).2 = Some true).
  { rewrite (elements_slots a) in Hall, Hla |- *.
    rewrite (elements_slots b) in Hall, Hlb.
    destruct (Forall2_length _ _ _ Hall).
    destruct (items_ a) as [la|], (items_ b) as [lb|];
      cbn [slots default] in *; rewrite ?take_nil in *.
    - rewrite <- (take_drop (Z.to_nat (size_ a)) la) at 2.
      rewrite <- (take_drop (Z.to_nat (size_ b)) lb) at 1.
      by apply (std_equal_same _ _ Hall [] _ [] _).
    - apply Forall2_nil_inv_r in Hall. by rewrite Hall.
    - done.
    - done. }
  by destruct (std_equal _ _ _ _ _ _) as [reads [[]|]].
Qed.

(** When [Type]'s [operator==] is identity, pairwise-equal elements are
    the same elements. *)
Lemma equal_sequence_same (a b : SimpleVector) :
  (∀ x y, T_equal x y = true → x = y) →
  equal_sequence T_equal a b → same_sequence a b.
Proof.
  intros Hid [Hsz Hall]. split; [done|].
  induction Hall as [|[|x] [|y] l k Hst _ IH]; try done.
  cbn [slot_eq] in Hst. injection Hst as Hxy. by rewrite (Hid x y Hxy), IH.
Qed.

Lemma same_sequence_equal (a b : SimpleVector) :
  (∀ x, T_equal x x = true) → determinate a →
  same_sequence a b → equal_sequence T_equal a b.
Proof.
  intros Hrefl Hdet [Hsz Hel]. split; [done|]. rewrite <- Hel. clear Hel.
  unfold determinate in Hdet.
  induction Hdet as [|[|x] l Hx _ IH]; [constructor|done|].
  constructor; [|done]. cbn [slot_eq]. by rewrite Hrefl.
Qed.

(** ** Further properties of the operations *)

(** X1: [Erase] at a valid position returns that position, removes
    exactly the element there, keeps the others in order, and leaves the
    capacity alone. *)
Theorem Erase_removes (v : SimpleVector) (pos : Z) :
  wf v → 0 ≤ pos < size_ v →
  ∃ v', Erase pos v = Return pos v' ∧ wf v' ∧
        size_ v' = size_ v - 1 ∧ capacity_ v' = capacity_ v ∧
        elements v' = delete (Z.to_nat pos) (elements v).
Proof.
  intros Hwf Hpos.
  destruct (Erase_spec v pos Hwf Hpos) as (l' & Hrun & Hlen & Hl').
  eexists. split; [exact Hrun|].
  split; [by eapply wf_Erase|]. split_and!; [done..|].
  unfold elements at 1. cbn [items_ size_].
  by rewrite Hl', delete_take_drop.
Qed.

(** The reallocating [Insert] on a full vector, with the elements of the
    result. *)
Lemma Insert_full_run (v : SimpleVector) (pos : Z) (x : T) :
  wf v → size_ v = capacity_ v → 0 ≤ pos ≤ size_ v →
  capacity_ v + capacity_ v ≤ SIZE_MAX →
  ∃ v', Insert pos x v = Return pos v' ∧ wf v' ∧
        size_ v' = size_ v + 1 ∧
        capacity_ v' = (if capacity_ v =? 0 then 1 else 2 * capacity_ v) ∧
        elements v' = inserted_at pos x (elements v).
Proof.
  intros Hwf Hfull Hpos Hdouble.
  assert (Hnew : (if capacity_ v =? 0 then 1 else capacity_ v + capacity_ v)
                 ≤ SIZE_MAX).
  { destruct (capacity_ v =? 0); unfold SIZE_MAX in *; lia. }
  pose proof (InsertInVector_full v pos x Hwf Hfull Hpos Hnew) as Hins.
  pose proof (wf_InsertInVector _ _ _ _ _ Hwf Hpos Hins) as Hwf1.
  unfold Insert. eexists. split; [exact Hins|]. split; [exact Hwf1|].
  cbn [size_ capacity_]. split_and!; [done|destruct (capacity_ v =? 0); lia|].
  assert (Hl : length (slots (items_ v)) = Z.to_nat (size_ v)).
  { destruct Hwf as (? & ? & Hbuf). destruct (items_ v); simpl in *; lia. }
  rewrite (elements_slots v).
  rewrite (take_ge (slots (items_ v)) (Z.to_nat (size_ v))) by lia.
  unfold inserted_at.
  rewrite cons_middle, !(assoc_L (++)).
  rewrite elements_mk; [by rewrite <- !(assoc_L (++))|].
  rewrite !length_app, length_take, length_drop. simpl. lia.
Qed.

(** X2: on a full vector whose capacity can double, [Insert] reallocates
    and does what is asked: the value sits at [pos], the elements from
    [pos] on follow it in order, the ones before are kept. *)
Theorem Insert_full_inserts (v : SimpleVector) (pos : Z) (x : T) :
  wf v → size_ v = capacity_ v → 0 ≤ pos ≤ size_ v →
  capacity_ v + capacity_ v ≤ SIZE_MAX →
  ∃ v', Insert pos x v = Return pos v' ∧ wf v' ∧
        size_ v' = size_ v + 1 ∧
        capacity_ v' = (if capacity_ v =? 0 then 1 else 2 * capacity_ v) ∧
        elements v' = inserted_at pos x (elements v).
Proof. apply Insert_full_run. Qed.

(** X3: whenever [Insert] has room (a free slot, or a capacity that can
    double) it returns the position it was given, the size grows by one,
    the element at the returned position is the value, and the elements
    before it are unchanged; without room it does not return. *)
Theorem Insert_returns_position (v : SimpleVector) (pos : Z) (x : T) :
  wf v → 0 ≤ pos ≤ size_ v →
  (size_ v < capacity_ v ∨ capacity_ v + capacity_ v ≤ SIZE_MAX →
   ∃ v', Insert pos x v = Return pos v' ∧ wf v' ∧
         size_ v' = size_ v + 1 ∧
         elements v' !! Z.to_nat pos = Some (Value x) ∧
         take (Z.to_nat pos) (elements v') = take (Z.to_nat pos) (elements v)) ∧
  (∀ it v', Insert pos x v = Return it v' →
            size_ v < capacity_ v ∨ capacity_ v + capacity_ v ≤ SIZE_MAX).
Proof.
  intros Hwf Hpos. split.
  2: { intros it v' Hrun. by eapply InsertInVector_returns. }
  intros Hroom.
  destruct (Z.lt_ge_cases (size_ v) (capacity_ v)) as [Hspare|Hfull].
  - pose proof Hwf as (Hsz & Hcap & Hbuf).
    destruct (items_ v) as [l|] eqn:Hitems; [|lia].
    pose proof (InsertInVector_spare v pos x l Hitems Hbuf Hcap Hspare Hpos) as Hins.
    pose proof (wf_InsertInVector _ _ _ _ _ Hwf Hpos Hins) as Hwf1.
    unfold Insert. eexists. split; [exact Hins|]. split; [exact Hwf1|].
    split; [done|]. unfold elements. rewrite Hitems. cbn [items_ size_].
    split.
    + rewrite lookup_take_lt by lia. apply list_lookup_insert_eq. lia.
    + rewrite !take_take, take_insert_ge by lia.
      f_equal. lia.
  - destruct Hroom as [?|Hdouble]; [lia|].
    assert (Hfull' : size_ v = capacity_ v) by (destruct Hwf as (? & _); lia).
    destruct (Insert_full_run v pos x Hwf Hfull' Hpos Hdouble)
      as (v' & Hrun & Hwf' & Hsz' & _ & Hel).
    exists v'. split_and!; try done.
    + rewrite Hel. unfold inserted_at. apply list_lookup_middle.
      rewrite length_take, (length_elements v Hwf). lia.
    + rewrite Hel. unfold inserted_at.
      rewrite take_app_length'; [done|].
      rewrite length_take, (length_elements v Hwf). lia.
Qed.

(** A returning run of [PushBack]s appends. *)
Lemma push_all_elements (xs : list T) :
  ∀ v v' : SimpleVector,
    wf v → push_all xs v = Return tt v' →
    wf v' ∧ size_ v' = size_ v + Z.of_nat (length xs) ∧
    capacity_ v ≤ capacity_ v' ∧
    elements v' = elements v ++ (Value <$> xs).
Proof.
  induction xs as [|x xs IH]; intros v v' Hwf Hrun.
  - injection Hrun as <-. cbn [length fmap list_fmap].
    rewrite app_nil_r. split_and!; [done|lia|lia|done].
  - cbn [push_all] in Hrun.
    apply bind_Return in Hrun as ([] & v1 & Hpush & Hrun).
    destruct (PushBack_returns _ _ _ Hwf Hpush) as [_ Hroom].
    destruct (PushBack_spec v x Hwf Hroom) as (v1' & Hpush' & Hwf1 & Hsz1 & Hcap1 & Hel1).
    assert (v1' = v1) as -> by congruence.
    destruct (IH v1 v' Hwf1 Hrun) as (Hwf' & Hsz' & Hcap' & Hel').
    split; [done|]. split; [cbn [length]; lia|]. split.
    + destruct Hwf as (? & _).
      destruct (Z.ltb_spec (size_ v) (capacity_ v)),
        (Z.eqb_spec (capacity_ v) 0); lia.
    + rewrite Hel', Hel1. cbn [fmap list_fmap]. by rewrite <- (assoc_L (++)).
Qed.

(** X4: a run of [PushBack]s that returns leaves the old elements in
    place, followed by the pushed values in the order of the calls; the
    capacity never shrinks; and the run does return while the size stays
    within [2^63]. *)
Theorem push_all_appends (xs : list T) (v : SimpleVector) :
  wf v →
  (size_ v + Z.of_nat (length xs) ≤ 2 ^ 63 →
   ∃ v', push_all xs v = Return tt v') ∧
  (∀ v', push_all xs v = Return tt v' →
         size_ v' = size_ v + Z.of_nat (length xs) ∧
         capacity_ v ≤ capacity_ v' ∧
         elements v' = elements v ++ (Value <$> xs)).
Proof.
  intros Hwf. split; [by apply push_all_returns|].
  intros v' Hrun. by destruct (push_all_elements xs v v' Hwf Hrun) as (_ & ?).
Qed.

(** X5: [PushBack] never reallocates while there is a free slot: pushing
    no more values than the spare capacity holds keeps [capacity_]. *)
Theorem push_all_within_capacity (xs : list T) :
  ∀ v : SimpleVector,
    wf v → size_ v + Z.of_nat (length xs) ≤ capacity_ v →
    ∃ v', push_all xs v = Return tt v' ∧
          capacity_ v' = capacity_ v ∧
          size_ v' = size_ v + Z.of_nat (length xs) ∧
          elements v' = elements v ++ (Value <$> xs).
Proof.
  induction xs as [|x xs IH]; intros v Hwf Hfit.
  - exists v. cbn [length fmap list_fmap]. rewrite app_nil_r.
    split_and!; [done|done|lia|done].
  - cbn [length] in Hfit.
    destruct (PushBack_spec v x Hwf) as (v1 & Hpush & Hwf1 & Hsz1 & Hcap1 & Hel1);
      [left; lia|].
    rewrite (proj2 (Z.ltb_lt _ _)) in Hcap1 by lia.
    destruct (IH v1 Hwf1) as (v' & Hrun & Hcap' & Hsz' & Hel'); [lia|].
    exists v'. split_and!.
    + cbn [push_all]. unfold bind. by rewrite Hpush.
    + congruence.
    + cbn [length]. lia.
    + rewrite Hel', Hel1. cbn [fmap list_fmap]. by rewrite <- (assoc_L (++)).
Qed.

Lemma PopBack_nonempty (v : SimpleVector) :
  0 < size_ v ≤ SIZE_MAX →
  PopBack v = Return tt (mkSimpleVector (items_ v) (size_ v - 1) (capacity_ v)).
Proof.
  destruct v as [items sz cap]. cbn [items_ size_ capacity_]. intros Hsz.
  unfold PopBack. run_method.
  rewrite (proj2 (Z.eqb_neq sz 0)) by lia.
  by rewrite wrap_small by lia.
Qed.

Lemma pop_all_spec (n : nat) :
  ∀ v : SimpleVector,
    Z.of_nat n ≤ size_ v ≤ SIZE_MAX →
    pop_all n v
    = Return tt (mkSimpleVector (items_ v) (size_ v - Z.of_nat n) (capacity_ v)).
Proof.
  induction n as [|n IH]; intros v Hn.
  - destruct v as [items sz cap]. cbn [pop_all]. unfold ret.
    cbn [items_ size_ capacity_]. by rewrite Z.sub_0_r.
  - cbn [pop_all]. unfold bind. rewrite PopBack_nonempty by lia.
    rewrite IH by (cbn [size_]; lia). cbn [items_ size_ capacity_].
    do 2 f_equal. lia.
Qed.

(** X6: [PopBack] on an empty vector stops at the assertion; on a
    non-empty one it drops the last element and touches neither buffer
    nor capacity. *)
Theorem PopBack_spec (v : SimpleVector) :
  (size_ v = 0 → PopBack v = Abort) ∧
  (wf v → 0 < size_ v →
   ∃ v', PopBack v = Return tt v' ∧ wf v' ∧
         size_ v' = size_ v - 1 ∧ capacity_ v' = capacity_ v ∧
         items_ v' = items_ v ∧
         elements v' = take (Z.to_nat (size_ v - 1)) (elements v)).
Proof.
  split.
  - destruct v as [items sz cap]. cbn [size_]. intros ->. reflexivity.
  - intros Hwf Hsz. pose proof Hwf as (Hsz' & Hcap & Hbuf).
    pose proof (PopBack_nonempty v) as Hrun.
    eexists. split; [apply Hrun; lia|].
    split; [eapply wf_PopBack; [exact Hwf|apply Hrun; lia]|].
    cbn [items_ size_ capacity_]. split_and!; try done.
    unfold elements. cbn [items_ size_].
    destruct (items_ v); [|by rewrite take_nil].
    rewrite take_take. f_equal. lia.
Qed.

(** X7: pushing [n] values and popping [n] times gives back the sequence
    the vector had, element for element. *)
Theorem push_pop_roundtrip (xs : list T) (v : SimpleVector) :
  wf v → size_ v + Z.of_nat (length xs) ≤ 2 ^ 63 →
  ∃ v', and_then (push_all xs v) (pop_all (length xs)) = Return tt v' ∧
        same_sequence v' v.
Proof.
  intros Hwf Hbound.
  destruct (push_all_returns xs v Hwf Hbound) as (v1 & Hrun).
  destruct (push_all_elements xs v v1 Hwf Hrun) as (Hwf1 & Hsz1 & _ & Hel1).
  unfold and_then. rewrite Hrun.
  rewrite pop_all_spec
    by (destruct Hwf as (? & _), Hwf1 as (? & ? & _); lia).
  eexists. split; [reflexivity|]. split; cbn [size_]; [lia|].
  replace (size_ v1 - Z.of_nat (length xs)) with (size_ v) by lia.
  pose proof (length_elements v Hwf) as Hlen.
  rewrite elements_slots. cbn [items_ size_].
  rewrite (elements_slots v1) in Hel1.
  assert (take (Z.to_nat (size_ v)) (slots (items_ v1))
          = take (Z.to_nat (size_ v))
              (take (Z.to_nat (size_ v1)) (slots (items_ v1)))) as ->
    by (rewrite take_take; f_equal; lia).
  rewrite Hel1, <- Hlen. by rewrite take_app_length.
Qed.

(** Copying the first [n] slots of one array over the first [n] of
    another. *)
Lemma std_move_prefix (src dst : buffer) (n c1 c2 : Z) :
  buffer_ok src c1 → buffer_ok dst c2 → 0 ≤ n ≤ c1 → n ≤ c2 →
  ∃ r, std_move (Z.to_nat n) src 0 dst 0 = Some r ∧ buffer_ok r c2 ∧
       (is_Some dst → is_Some r) ∧ (dst = None → r = None) ∧
       slots r = take (Z.to_nat n) (slots src) ++ drop (Z.to_nat n) (slots dst).
Proof.
  intros Hsrc Hdst Hn1 Hn2.
  destruct (decide (n = 0)) as [->|Hne].
  - exists dst. by rewrite take_0, drop_0.
  - destruct src as [ls|]; [|simpl in *; lia].
    destruct dst as [ld|]; [|simpl in *; lia]. simpl in Hsrc, Hdst.
    rewrite std_move_take_drop by lia.
    eexists. split; [reflexivity|].
    change (Z.to_nat 0) with 0%nat. rewrite take_0, drop_0.
    cbn [app Nat.add slots default buffer_ok].
    split_and!; [|done|done|done].
    rewrite length_app, length_take, length_drop. lia.
Qed.

Lemma elements_of_slots (items : buffer) (n c : Z) (l rest : list slot) :
  slots items = l ++ rest → Z.to_nat n = length l →
  elements (mkSimpleVector items n c) = l.
Proof.
  intros Hslots Hn. rewrite elements_slots. cbn [items_ size_].
  by rewrite Hslots, Hn, take_app_length.
Qed.

(** X8: [SimpleVector(size, value)] holds [size] copies of [value] with
    capacity [size]; for [size == 0] nothing is allocated. *)
Theorem SimpleVector_fill_spec (size : Z) (value : T) :
  0 ≤ size →
  ∃ v, SimpleVector_fill size value = Return tt v ∧
       size_ v = size ∧ capacity_ v = size ∧
       elements v = replicate (Z.to_nat size) (Value value) ∧
       (items_ v = None ↔ size = 0).
Proof.
  intros Hsize. unfold SimpleVector_fill.
  destruct (Z.eqb_spec size 0) as [->|Hne].
  - eexists. split; [reflexivity|]. by cbn.
  - run_method. unfold new_array.
    pose proof (std_fill_middle (replicate (Z.to_nat size) Indeterminate)
                  [] [] (Value value)) as Hfill.
    rewrite length_replicate, app_nil_r in Hfill. cbn [app length] in Hfill.
    change (Z.of_nat 0) with 0 in Hfill. rewrite Hfill.
    eexists. split; [reflexivity|]. cbn [items_ size_ capacity_].
    split_and!; [done|done| |split; [done|lia]].
    rewrite app_nil_r. unfold elements. cbn [items_ size_].
    by rewrite take_ge by (rewrite length_replicate; lia).
Qed.

(** X9: the initializer-list constructor holds the listed values in order,
    with size and capacity the length of the list; for an empty list
    nothing is allocated. *)
Theorem SimpleVector_init_spec (init : list T) :
  ∃ v, SimpleVector_init init = Return tt v ∧
       size_ v = Z.of_nat (length init) ∧
       capacity_ v = Z.of_nat (length init) ∧
       elements v = Value <$> init ∧
       (items_ v = None ↔ init = []).
Proof.
  unfold SimpleVector_init. cbv zeta.
  destruct (Z.eqb_spec (Z.of_nat (length init)) 0) as [Hnil|Hne].
  - assert (init = []) as -> by (destruct init; [done|simpl in Hnil; lia]).
    eexists. split; [reflexivity|]. by cbn.
  - run_method. unfold new_array. rewrite Nat2Z.id.
    pose proof (std_move_middle (Value <$> init) [] [] []
                  (replicate (length init) Indeterminate) []) as Hmove.
    rewrite length_fmap, !app_nil_r in Hmove. cbn [app length] in Hmove.
    change (Z.of_nat 0) with 0 in Hmove.
    rewrite Hmove by (by rewrite length_replicate).
    eexists. split; [reflexivity|]. cbn [items_ size_ capacity_].
    split_and!; [done|done| |split; [done|by intros ->]].
    unfold elements. cbn [items_ size_].
    by rewrite take_ge by (rewrite length_fmap; lia).
Qed.

Lemma SimpleVector_copy_run (other : SimpleVector) :
  wf other →
  ∃ r, SimpleVector_copy other
       = Return tt (mkSimpleVector r (size_ other) (capacity_ other)) ∧
       is_Some r ∧
       elements (mkSimpleVector r (size_ other) (capacity_ other))
       = elements other.
Proof.
  intros (Hsz & Hcap & Hbuf).
  destruct (std_move_prefix (items_ other) (new_array (capacity_ other))
              (size_ other) (capacity_ other) (capacity_ other))
    as (r & Hmove & Hr & Hsome & _ & Hslots);
    [done|apply new_array_ok; lia|lia|lia|].
  exists r. split_and!.
  - destruct other as [items sz cap]. unfold SimpleVector_copy. run_method.
    cbn [items_ size_ capacity_] in Hmove. by rewrite Hmove.
  - by apply Hsome.
  - rewrite (elements_slots other).
    apply (elements_of_slots _ _ _ _ _ Hslots).
    rewrite length_take. destruct (items_ other); simpl in *; lia.
Qed.

(** X10: the copy constructor always allocates a buffer of the source's
    capacity and gives a vector with the source's size, capacity and
    elements. *)
Theorem SimpleVector_copy_spec (other : SimpleVector) :
  wf other →
  ∃ v, SimpleVector_copy other = Return tt v ∧ wf v ∧
       same_sequence v other ∧ capacity_ v = capacity_ other ∧
       items_ v ≠ None.
Proof.
  intros Hwf.
  destruct (SimpleVector_copy_run other Hwf) as (r & Hrun & [l ->] & Hel).
  eexists. split; [exact Hrun|].
  split; [by eapply wf_copy|].
  split; [by split|]. by split.
Qed.

(** X11: copy assignment from another object gives [this] the size and
    elements of [rhs]; the capacity stays when [rhs] fits and becomes the
    capacity of [rhs] otherwise.  Self-assignment changes nothing. *)
Theorem assign_copy_spec (this rhs : SimpleVector) :
  wf this → wf rhs →
  assign_copy true this this = Return tt this ∧
  ∃ v, assign_copy false rhs this = Return tt v ∧ wf v ∧
       same_sequence v rhs ∧
       capacity_ v = (if size_ rhs <=? capacity_ this
                      then capacity_ this else capacity_ rhs).
Proof.
  intros Hthis Hrhs. split; [reflexivity|].
  assert (Hex : ∃ v, assign_copy false rhs this = Return tt v ∧
                     same_sequence v rhs ∧
                     capacity_ v = (if size_ rhs <=? capacity_ this
                                    then capacity_ this else capacity_ rhs)).
  { pose proof Hthis as (Hsz & Hcap & Hbuf).
    pose proof Hrhs as (Hsz' & Hcap' & Hbuf').
    destruct (Z.leb_spec (size_ rhs) (capacity_ this)) as [Hfit|Hbig].
    - destruct (std_move_prefix (items_ rhs) (items_ this)
                  (size_ rhs) (capacity_ rhs) (capacity_ this))
        as (r & Hmove & Hr & _ & _ & Hslots); [done|done|lia|lia|].
      exists (mkSimpleVector r (size_ rhs) (capacity_ this)). split.
      + destruct this as [items sz cap]. unfold assign_copy. run_method.
        cbn [items_ size_ capacity_] in *.
        rewrite (proj2 (Z.leb_le _ _)) by done.
        destruct rhs as [ritems rsz rcap]. cbn [items_ size_ capacity_] in *.
        by rewrite Hmove.
      + split; [|done]. split; [done|].
        rewrite (elements_slots rhs).
        apply (elements_of_slots _ _ _ _ _ Hslots).
        rewrite length_take. destruct (items_ rhs); simpl in *; lia.
    - destruct (SimpleVector_copy_run rhs Hrhs) as (r & Hcopy & _ & Hel).
      eexists. split.
      + destruct this as [items sz cap]. unfold assign_copy. run_method.
        cbn [items_ size_ capacity_] in *.
        rewrite (proj2 (Z.leb_gt _ _)) by done.
        rewrite Hcopy. reflexivity.
      + split; [by split|done]. }
  destruct Hex as (v & Hrun & Hrest). exists v.
  split; [done|]. split; [|done].
  eapply wf_assign_copy; [exact Hthis|exact Hrhs|exact Hrun].
Qed.

(** X12: in a state that satisfies the class invariant ([size_] at most
    [capacity_], the buffer of exactly [capacity_] slots) every index
    below [size_] can be read: [operator[]] and [At] return the element
    there, leave the object as it was and do not run into undefined
    behaviour. *)
Theorem access_below_size (v : SimpleVector) (index : Z) :
  wf v → 0 ≤ index < size_ v →
  ∃ x, subscript index v = Return x v ∧ At index v = Return x v ∧
       elements v !! Z.to_nat index = Some x.
Proof.
  intros (Hsz & Hcap & Hbuf) Hi.
  destruct v as [items sz cap]. cbn [items_ size_ capacity_] in *.
  destruct items as [l|]; [|simpl in Hbuf; lia]. simpl in Hbuf.
  destruct (load_in_range l index) as [Hload [x Hx]]; [lia|].
  exists x. unfold subscript, At, elements. run_method.
  rewrite Z.geb_leb, (proj2 (Z.leb_gt sz index)) by lia.
  rewrite !Hload, !Hx.
  split_and!; [done|done|]. by rewrite lookup_take_lt by lia.
Qed.

(** X13: assigning through [operator[]] at an index below [size_] changes
    that element and nothing else, and [At] at the index then returns the
    assigned value. *)
Theorem subscript_assign_At (v : SimpleVector) (index : Z) (x : T) :
  wf v → 0 ≤ index < size_ v →
  ∃ v', subscript_assign index x v = Return tt v' ∧ wf v' ∧
        size_ v' = size_ v ∧ capacity_ v' = capacity_ v ∧
        At index v' = Return (Value x) v' ∧
        elements v' = <[Z.to_nat index := Value x]> (elements v).
Proof.
  intros Hwf Hi. pose proof Hwf as (Hsz & Hcap & Hbuf).
  destruct v as [items sz cap]. cbn [items_ size_ capacity_] in *.
  destruct items as [l|]; [|simpl in Hbuf; lia]. simpl in Hbuf.
  assert (Hrun : subscript_assign index x (mkSimpleVector (Some l) sz cap)
                 = Return tt (mkSimpleVector
                                (Some (<[Z.to_nat index := Value x]> l)) sz cap)).
  { unfold subscript_assign. run_method. by rewrite store_in_range by lia. }
  eexists. split; [exact Hrun|].
  split; [by eapply wf_subscript_assign|].
  split_and!; [done|done| |].
  - unfold At. run_method.
    rewrite Z.geb_leb, (proj2 (Z.leb_gt sz index)) by lia.
    destruct (load_in_range (<[Z.to_nat index := Value x]> l) index) as [-> _];
      [rewrite length_insert; lia|].
    by rewrite list_lookup_insert_eq by lia.
  - unfold elements. cbn [items_ size_]. apply take_insert_lt. lia.
Qed.

(** X14: [Resize] with any [new_size] always returns with [size_ ==
    new_size]; the capacity never shrinks and, when it has to grow,
    becomes [max(new_size, 2 * size)]; shrinking keeps the first
    [new_size] elements. *)
Theorem Resize_spec (v : SimpleVector) (new_size : Z) :
  wf v → 0 ≤ new_size ≤ SIZE_MAX →
  ∃ v', Resize new_size v = Return tt v' ∧ wf v' ∧
        size_ v' = new_size ∧ capacity_ v ≤ capacity_ v' ∧
        (new_size ≤ capacity_ v → capacity_ v' = capacity_ v) ∧
        (capacity_ v < new_size →
         capacity_ v' = Z.max new_size (wrap (size_ v * 2))) ∧
        (new_size ≤ size_ v →
         elements v' = take (Z.to_nat new_size) (elements v)).
Proof.
  intros Hwf Hn. pose proof Hwf as (Hsz & Hcap & Hbuf).
  destruct (Z.le_gt_cases new_size (capacity_ v)) as [Hle|Hgt].
  - pose proof (Resize_within v new_size Hle) as Hrun.
    eexists. split; [exact Hrun|]. split; [by eapply wf_Resize|].
    cbn [size_ capacity_]. split_and!; [done|lia|done|lia|].
    intros Hshrink. rewrite !elements_slots. cbn [items_ size_].
    rewrite take_take. f_equal. lia.
  - pose proof (Resize_grow v new_size Hwf Hgt) as Hrun.
    eexists. split; [exact Hrun|]. split; [by eapply wf_Resize|].
    cbn [size_ capacity_]. split_and!; [done|lia|lia|done|lia].
Qed.

(** X15: after [Clear] the vector is empty but keeps its buffer: a
    [PushBack] that follows reuses the capacity instead of reallocating. *)
Theorem Clear_PushBack_reuses (v : SimpleVector) (x : T) :
  wf v → 0 < capacity_ v →
  and_then (Clear v) IsEmpty = Return true (mkSimpleVector (items_ v) 0 (capacity_ v)) ∧
  ∃ v', and_then (Clear v) (PushBack x) = Return tt v' ∧
        size_ v' = 1 ∧ capacity_ v' = capacity_ v ∧
        elements v' = [Value x].
Proof.
  intros Hwf Hcap. pose proof Hwf as (Hsz & Hmax & Hbuf).
  split; [reflexivity|].
  unfold Clear, set_size, and_then.
  destruct (PushBack_spec (mkSimpleVector (items_ v) 0 (capacity_ v)) x)
    as (v' & Hrun & _ & Hsz' & Hcap' & Hel').
  { unfold wf. cbn [items_ size_ capacity_]. split_and!; [lia|lia|done|done]. }
  { left. cbn [size_ capacity_]. lia. }
  cbn [size_ capacity_] in Hsz', Hcap'.
  rewrite (proj2 (Z.ltb_lt _ _)) in Hcap' by lia.
  exists v'. split_and!; [done|lia|done|].
  rewrite Hel'. rewrite elements_slots. cbn [items_ size_].
  change (Z.to_nat 0) with 0%nat. by rewrite take_0.
Qed.

(** X16: the move constructor and move assignment hand the members over
    and leave the source default-constructed, and the source stays usable:
    a [PushBack] on it gives a vector of one element. *)
Theorem move_leaves_source_usable (this other : SimpleVector) (x : T) :
  SimpleVector_move other = (other, SimpleVector_default) ∧
  assign_move false this other = (other, SimpleVector_default) ∧
  assign_move true this this = (this, this) ∧
  PushBack x (snd (SimpleVector_move other))
  = Return tt (mkSimpleVector (Some [Value x]) 1 1).
Proof.
  destruct other as [items sz cap]. split_and!; reflexivity.
Qed.

(** ** Allocation failure *)

(** X23: what a failed allocation leaves behind.  [Resize] and
    [InsertInVector] write [capacity_] before they allocate, so when
    [new] throws the exception leaves the object with the new capacity
    next to the old buffer and the old size; on the paths that do not
    allocate they are the functions themselves.  [Reserve] and the copy
    assignment allocate first, and a throw leaves the object as it was. *)
Theorem bad_alloc_keeps_new_capacity (v : SimpleVector) :
  (∀ new_size, capacity_ v < new_size →
     Resize_bad_alloc new_size v
     = Throw bad_alloc
         (mkSimpleVector (items_ v) (size_ v)
            (Z.max new_size (wrap (size_ v * 2))))) ∧
  (∀ pos value, capacity_ v ≤ size_ v →
     InsertInVector_bad_alloc pos value v
     = Throw bad_alloc
         (mkSimpleVector (items_ v) (size_ v)
            (if capacity_ v =? 0 then 1
             else wrap (capacity_ v + capacity_ v)))) ∧
  (∀ new_size, new_size ≤ capacity_ v →
     Resize_bad_alloc new_size v = Resize new_size v) ∧
  (∀ pos value, size_ v < capacity_ v →
     InsertInVector_bad_alloc pos value v = InsertInVector pos value v) ∧
  (∀ new_capacity, capacity_ v < new_capacity →
     Reserve_bad_alloc new_capacity v = Throw bad_alloc v) ∧
  (∀ rhs, capacity_ v < size_ rhs →
     assign_copy_bad_alloc false rhs v = Throw bad_alloc v).
Proof.
  destruct v as [items sz cap]. cbn [items_ size_ capacity_].
  split_and!.
  5: { intros n Hlt. unfold Reserve_bad_alloc. run_method.
       by rewrite (proj2 (Z.ltb_lt _ _)) by done. }
  5: { intros [ritems rsz rcap] Hlt. cbn [size_] in Hlt.
       unfold assign_copy_bad_alloc. run_method.
       by rewrite (proj2 (Z.leb_gt _ _)) by done. }
  - intros new_size Hlt. unfold Resize_bad_alloc. run_method.
    by rewrite (proj2 (Z.ltb_lt _ _)) by done.
  - intros pos value Hle. unfold InsertInVector_bad_alloc. run_method.
    by rewrite (proj2 (Z.ltb_ge _ _)) by done.
  - intros new_size Hle. unfold Resize_bad_alloc, Resize. run_method.
    by rewrite (proj2 (Z.ltb_ge _ _)) by done.
  - intros pos value Hlt.
    unfold InsertInVector_bad_alloc, InsertInVector. run_method.
    by rewrite (proj2 (Z.ltb_lt _ _)) by done.
Qed.

(** ** Further properties of the comparisons *)

(** The reads of [std::equal] stay inside the two ranges it is given. *)
Lemma std_equal_reads (n : nat) :
  ∀ (a b : buffer) (first1 first2 : Z) (reads : list read) (r : option bool),
    std_equal T_equal n a first1 b first2 = (reads, r) →
    Forall (λ rd, match rd with
                  | ReadLhs i => first1 ≤ i < first1 + Z.of_nat n
                  | ReadRhs i => first2 ≤ i < first2 + Z.of_nat n
                  end) reads.
Proof.
  induction n as [|n IH]; intros a b first1 first2 reads r Hrun.
  - injection Hrun as <- _. constructor.
  - cbn [std_equal] in Hrun.
    assert (Hhere : Forall (λ rd, match rd with
                    | ReadLhs i => first1 ≤ i < first1 + Z.of_nat (S n)
                    | ReadRhs i => first2 ≤ i < first2 + Z.of_nat (S n)
                    end) [ReadLhs first1; ReadRhs first2]).
    { repeat constructor; lia. }
    destruct (load a first1) as [x|]; [|by injection Hrun as <- _].
    destruct (load b first2) as [y|]; [|by injection Hrun as <- _].
    destruct (slot_eq T_equal x y) as [[]|]; [|by injection Hrun as <- _..].
    destruct (std_equal T_equal n a (first1 + 1) b (first2 + 1))
      as [rest r'] eqn:Hrest.
    injection Hrun as <- _.
    apply (Forall_app_2 _ [ReadLhs first1; ReadRhs first2] rest); [done|].
    pose proof (IH _ _ _ _ _ _ Hrest) as Hall.
    eapply Forall_impl; [exact Hall|]. intros [j|j]; simpl; lia.
Qed.

(** [std::equal] has an answer when both ranges hold values throughout. *)
Lemma std_equal_defined (n : nat) :
  ∀ (a b : buffer) (first1 first2 : Z),
    (∀ i, (i < n)%nat →
       ∃ x y, load a (first1 + Z.of_nat i) = Some (Value x) ∧
              load b (first2 + Z.of_nat i) = Some (Value y)) →
    ∃ reads r, std_equal T_equal n a first1 b first2 = (reads, Some r).
Proof.
  induction n as [|n IH]; intros a b first1 first2 Hval; [by eexists _, _|].
  cbn [std_equal].
  destruct (Hval 0%nat) as (x & y & Hx & Hy); [lia|].
  rewrite !Z.add_0_r in Hx, Hy. rewrite Hx, Hy. cbn [slot_eq].
  destruct (T_equal x y); [|by eexists _, _].
  destruct (IH a b (first1 + 1) (first2 + 1)) as (rest & r & ->).
  { intros i Hi. destruct (Hval (S i)) as (x' & y' & Hx' & Hy'); [lia|].
    exists x', y'.
    by rewrite Nat2Z.inj_succ, <- !Z.add_1_l, !Z.add_assoc in Hx', Hy'. }
  by eexists _, _.
Qed.

Lemma determinate_load (v : SimpleVector) (i : nat) :
  wf v → determinate v → (i < Z.to_nat (size_ v))%nat →
  ∃ x, load (items_ v) (0 + Z.of_nat i) = Some (Value x).
Proof.
  intros (Hsz & Hcap & Hbuf) Hdet Hi. unfold determinate, elements in Hdet.
  destruct (items_ v) as [l|]; [|simpl in Hbuf; lia]. simpl in Hbuf.
  destruct (load_in_range l (0 + Z.of_nat i)) as [-> [s Hs]]; [lia|].
  rewrite Hs. rewrite Z.add_0_l, Nat2Z.id in Hs.
  assert (take (Z.to_nat (size_ v)) l !! i = Some s) as Hin
    by (by rewrite lookup_take_lt).
  pose proof (Forall_lookup_1 _ _ _ _ Hdet Hin) as Hne.
  destruct s as [|x]; [done|]. by exists x.
Qed.

(** X17: whenever [operator==] or [operator!=] produces an answer, the
    answer is right for the element [operator==] at hand: [==] is true
    exactly for two vectors of the same size whose elements are pairwise
    equal under it, and [!=] exactly otherwise.  When the element
    [operator==] is identity, [==] is true exactly for two vectors with
    the same size and the same elements in order. *)
Theorem operator_eq_answer (a b : SimpleVector) (r : bool) :
  (operator_eq T_equal a b = Some r →
   (r = true ↔ equal_sequence T_equal a b)) ∧
  (operator_ne T_equal a b = Some r →
   (r = true ↔ ¬ equal_sequence T_equal a b)) ∧
  ((∀ x y, T_equal x y = true ↔ x = y) →
   operator_eq T_equal a b = Some r → (r = true ↔ same_sequence a b)).
Proof.
  destruct (operator_eq_sound a b) as [Htrue Hfalse].
  unfold operator_ne. split_and!.
  - intros Hrun. destruct r; split; try done.
    + intros _. by apply Htrue.
    + intros Hsame. by destruct (Hfalse Hrun).
  - destruct (operator_eq T_equal a b) as [[]|]; intros [= <-]; cbn;
      split; try done.
    + intros Hne. destruct Hne. by apply Htrue.
    + intros _. by apply Hfalse.
  - intros Hid Hrun. destruct r; split; try done.
    + intros _. apply equal_sequence_same; [|by apply Htrue].
      intros x y Hxy. by apply Hid.
    + intros [Hsz Hel].
      apply operator_eq_false_differs in Hrun
        as [Hne|(i & x & y & Ha & Hb & Hxy)]; [done|].
      rewrite Hel, Hb in Ha. injection Ha as ->.
      by rewrite (proj2 (Hid x x) eq_refl) in Hxy.
Qed.

(** X18: when the left operand is no longer than the right one (and both
    hold values throughout), [operator==] reads only valid elements, has
    an answer, and the answer is right; when the element [operator==] is
    reflexive, a vector compares equal to itself. *)
Theorem operator_eq_defined (a b : SimpleVector) :
  wf a → wf b → determinate a → determinate b →
  (size_ a ≤ size_ b →
   reads_within a b (operator_eq_trace T_equal a b).1 ∧
   ∃ r, operator_eq T_equal a b = Some r ∧
        (r = true ↔ equal_sequence T_equal a b)) ∧
  ((∀ x, T_equal x x = true) → operator_eq T_equal a a = Some true).
Proof.
  intros Hwfa Hwfb Hdeta Hdetb. split.
  2: { intros Hrefl. apply operator_eq_complete; [done|done|].
       by apply same_sequence_equal. }
  intros Hle. pose proof Hwfa as (Hsza & _). split.
  - unfold operator_eq_trace.
    destruct (std_equal T_equal (Z.to_nat (size_ a)) (items_ a) 0 (items_ b) 0)
      as [reads r] eqn:Hrun. cbn [fst].
    pose proof (std_equal_reads _ _ _ _ _ _ _ Hrun) as Hall.
    eapply Forall_impl; [exact Hall|].
    intros [j|j]; simpl; lia.
  - destruct (std_equal_defined (Z.to_nat (size_ a)) (items_ a) (items_ b) 0 0)
      as (reads & r & Hrun).
    { intros i Hi.
      destruct (determinate_load a i Hwfa Hdeta Hi) as (x & Hx).
      destruct (determinate_load b i Hwfb Hdetb) as (y & Hy); [lia|].
      by exists x, y. }
    assert (Hdef : ∃ r', operator_eq T_equal a b = Some r').
    { unfold operator_eq, operator_eq_trace. rewrite Hrun. cbn [snd].
      destruct r; by eexists. }
    destruct Hdef as (r' & Hr'). exists r'. split; [done|].
    destruct (operator_eq_sound a b) as [Htrue Hfalse].
    destruct r'; split; try done.
    + intros _. by apply Htrue.
    + intros Hsame. by destruct (Hfalse Hr').
Qed.

(** X19: when the element [operator==] is reflexive, a copy compares
    equal to its source, in both directions. *)
Theorem copy_compares_equal (other : SimpleVector) :
  (∀ x, T_equal x x = true) → wf other → determinate other →
  ∃ v, SimpleVector_copy other = Return tt v ∧
       operator_eq T_equal v other = Some true ∧
       operator_eq T_equal other v = Some true.
Proof.
  intros Hrefl Hwf Hdet.
  destruct (SimpleVector_copy_run other Hwf) as (r & Hrun & _ & Hel).
  pose proof (wf_copy _ _ Hwf Hrun) as Hwf'.
  eexists. split; [exact Hrun|]. split.
  - apply operator_eq_complete; [done|done|].
    apply same_sequence_equal; [done| |by split].
    unfold determinate in *. by rewrite Hel.
  - apply operator_eq_complete; [done|done|].
    apply same_sequence_equal; [done|done|by split].
Qed.

Section OrderingProofs.

Variable T_less : T → T → bool.


(** The reads of [std::lexicographical_compare] stay inside both ranges. *)
Lemma std_lexicographical_compare_reads (n1 : nat) :
  ∀ (n2 : nat) (a b : buffer) (first1 first2 : Z)
    (reads : list read) (r : option bool),
    std_lexicographical_compare T_less n1 n2 a first1 b first2 = (reads, r) →
    Forall (λ rd, match rd with
                  | ReadLhs i => first1 ≤ i < first1 + Z.of_nat n1
                  | ReadRhs i => first2 ≤ i < first2 + Z.of_nat n2
                  end) reads.
Proof.
  induction n1 as [|n1 IH]; intros n2 a b first1 first2 reads r Hrun.
  - destruct n2; injection Hrun as <- _; constructor.
  - destruct n2 as [|n2]; [injection Hrun as <- _; constructor|].
    cbn [std_lexicographical_compare] in Hrun.
    assert (Hhere : Forall (λ rd, match rd with
                    | ReadLhs i => first1 ≤ i < first1 + Z.of_nat (S n1)
                    | ReadRhs i => first2 ≤ i < first2 + Z.of_nat (S n2)
                    end) [ReadLhs first1; ReadRhs first2]).
    { repeat constructor; lia. }
    destruct (load a first1) as [x|]; [|by injection Hrun as <- _].
    destruct (load b first2) as [y|]; [|by injection Hrun as <- _].
    destruct (slot_less T_less x y) as [[]|];
      [by injection Hrun as <- _| |by injection Hrun as <- _].
    destruct (slot_less T_less y x) as [[]|];
      [by injection Hrun as <- _| |by injection Hrun as <- _].
    destruct (std_lexicographical_compare T_less n1 n2
                a (first1 + 1) b (first2 + 1))
      as [rest r'] eqn:Hrest.
    injection Hrun as <- _.
    apply (Forall_app_2 _ [ReadLhs first1; ReadRhs first2] rest); [done|].
    pose proof (IH _ _ _ _ _ _ _ Hrest) as Hall.
    eapply Forall_impl; [exact Hall|]. intros [j|j]; simpl; lia.
Qed.

(** On two ranges of values the loop computes the lexicographic order. *)
Lemma std_lexicographical_compare_values (xs : list T) :
  ∀ (ys : list T) (a1 a2 b1 b2 : list slot),
    (std_lexicographical_compare T_less (length xs) (length ys)
       (Some (a1 ++ (Value <$> xs) ++ a2)) (Z.of_nat (length a1))
       (Some (b1 ++ (Value <$> ys) ++ b2)) (Z.of_nat (length b1))).2
    = Some (lex_less T_less xs ys).
Proof.
  induction xs as [|x xs IH]; intros ys a1 a2 b1 b2.
  - by destruct ys.
  - destruct ys as [|y ys]; [done|].
    cbn [length std_lexicographical_compare fmap list_fmap app
         lex_less].
    rewrite !load_middle. cbn [slot_less].
    destruct (T_less x y); [done|]. destruct (T_less y x); [done|].
    specialize (IH ys (a1 ++ [Value x]) a2 (b1 ++ [Value y]) b2).
    rewrite !length_app in IH. cbn [length] in IH.
    rewrite !Nat2Z.inj_add in IH. rewrite <- !(assoc_L (++)) in IH.
    cbn [app] in IH. change (Z.of_nat 1) with 1 in IH.
    by destruct (std_lexicographical_compare T_less _ _ _ _ _ _).
Qed.

Lemma operator_lt_values (a b : SimpleVector) (xs ys : list T) :
  wf a → wf b → elements a = Value <$> xs → elements b = Value <$> ys →
  operator_lt T_less a b = Some (lex_less T_less xs ys).
Proof.
  intros Hwfa Hwfb Hxs Hys.
  pose proof (length_elements a Hwfa) as Hla.
  pose proof (length_elements b Hwfb) as Hlb.
  rewrite Hxs, length_fmap in Hla. rewrite Hys, length_fmap in Hlb.
  unfold operator_lt, operator_lt_trace.
  rewrite <- Hla, <- Hlb.
  destruct xs as [|x xs]; [by destruct ys|].
  destruct ys as [|y ys]; [done|].
  destruct Hwfa as (Hsza & _ & Hbufa), Hwfb as (Hszb & _ & Hbufb).
  unfold elements in Hxs, Hys. cbn [length] in Hla, Hlb.
  destruct (items_ a) as [la|]; [|simpl in *; lia].
  destruct (items_ b) as [lb|]; [|simpl in *; lia].
  rewrite <- (take_drop (Z.to_nat (size_ a)) la).
  rewrite <- (take_drop (Z.to_nat (size_ b)) lb).
  rewrite Hxs, Hys.
  apply (std_lexicographical_compare_values (x :: xs) (y :: ys) [] _ [] _).
Qed.

(** X20: [operator<] reads only elements below [size_] of the operand it
    reads, whatever the two vectors are. *)
Theorem operator_lt_reads_within (a b : SimpleVector) :
  reads_within a b (operator_lt_trace T_less a b).1.
Proof.
  unfold operator_lt_trace.
  destruct (std_lexicographical_compare T_less
              (Z.to_nat (size_ a)) (Z.to_nat (size_ b))
              (items_ a) 0 (items_ b) 0) as [reads r] eqn:Hrun.
  cbn [fst].
  pose proof (std_lexicographical_compare_reads _ _ _ _ _ _ _ _ Hrun) as Hall.
  eapply Forall_impl; [exact Hall|].
  intros [j|j]; simpl; lia.
Qed.

(** X21: on vectors that hold values, [operator<] is the lexicographic
    order of the two element sequences, [>] is [<] with the operands
    exchanged, and [<=], [>=] are the negations of [>], [<]. *)
Theorem operator_lt_lexicographic (a b : SimpleVector) (xs ys : list T) :
  wf a → wf b → elements a = Value <$> xs → elements b = Value <$> ys →
  operator_lt T_less a b = Some (lex_less T_less xs ys) ∧
  operator_gt T_less a b = Some (lex_less T_less ys xs) ∧
  operator_le T_less a b = Some (negb (lex_less T_less ys xs)) ∧
  operator_ge T_less a b = Some (negb (lex_less T_less xs ys)).
Proof.
  intros Hwfa Hwfb Hxs Hys.
  unfold operator_gt, operator_le, operator_ge.
  rewrite (operator_lt_values a b xs ys), (operator_lt_values b a ys xs) by done.
  done.
Qed.

Lemma lex_less_irrefl (xs : list T) :
  (∀ x, T_less x x = false) → lex_less T_less xs xs = false.
Proof.
  intros Hirr. induction xs as [|x xs IH]; [done|].
  cbn [lex_less]. by rewrite Hirr.
Qed.

Lemma lex_less_prefix (xs ys : list T) (y : T) :
  (∀ x, T_less x x = false) →
  lex_less T_less xs (xs ++ y :: ys) = true ∧
  lex_less T_less (xs ++ y :: ys) xs = false.
Proof.
  intros Hirr. induction xs as [|x xs IH]; [done|].
  cbn [lex_less app]. by rewrite Hirr.
Qed.

(** X22: when the element order is irreflexive, a vector is not less than
    itself ([a <= a] and [a >= a] hold), and a vector is less than every
    proper extension of it, never the other way round. *)
Theorem operator_lt_irreflexive_prefix
    (a b : SimpleVector) (xs ys : list T) (y : T) :
  (∀ x, T_less x x = false) →
  wf a → wf b → elements a = Value <$> xs →
  elements b = Value <$> (xs ++ y :: ys) →
  operator_lt T_less a a = Some false ∧ operator_le T_less a a = Some true ∧
  operator_ge T_less a a = Some true ∧
  operator_lt T_less a b = Some true ∧ operator_lt T_less b a = Some false.
Proof.
  intros Hirr Hwfa Hwfb Hxs Hys.
  destruct (lex_less_prefix xs ys y Hirr) as [Hlt Hgt].
  unfold operator_le, operator_ge.
  rewrite (operator_lt_values a a xs xs) by done.
  rewrite (operator_lt_values a b xs (xs ++ y :: ys)) by done.
  rewrite (operator_lt_values b a (xs ++ y :: ys) xs) by done.
  rewrite lex_less_irrefl, Hlt, Hgt by done. done.
Qed.

End OrderingProofs.

End VectorProofs.

(** ** The claims at concrete vectors *)

(** C1: [Insert] with a free slot does not shift.  On [{1, 2, 3}] with
    capacity 4, [Insert(begin() + 1, 9)] yields [1, 9, 3, 4]: the element 2
    is overwritten and the stale slot 4 becomes the last element, where the
    specification has [1, 9, 2, 3]. *)
Theorem Insert_spare_does_not_shift :
  v123_spare = Return tt w123_spare ∧
  size_ w123_spare < capacity_ w123_spare ∧
  Insert 1 9 w123_spare
  = Return 1 (mkSimpleVector (Some [Value 1; Value 9; Value 3; Value 4]) 4 4) ∧
  inserted_at 1 9 (elements w123_spare)
  = [Value 1; Value 9; Value 2; Value 3] ∧
  elements (mkSimpleVector (Some [Value 1; Value 9; Value 3; Value 4]) 4 4)
  ≠ inserted_at 1 9 (elements w123_spare).
Proof.
  split_and!; [reflexivity|by vm_compute|reflexivity|reflexivity|].
  vm_compute. discriminate.
Qed.

(** C2: on the same vector [Insert(begin() + 1, 9)] then
    [Erase(begin() + 1)] leaves [1, 3, 4], not [1, 2, 3]. *)
Theorem Insert_Erase_spare_loses_element :
  v123_spare = Return tt w123_spare ∧
  and_then (Insert 1 9 w123_spare) (Erase 1)
  = Return 1 (mkSimpleVector (Some [Value 1; Value 3; Value 4; Value 4]) 3 4) ∧
  elements w123_spare = [Value 1; Value 2; Value 3] ∧
  elements (mkSimpleVector (Some [Value 1; Value 3; Value 4; Value 4]) 3 4)
  = [Value 1; Value 3; Value 4] ∧
  ¬ same_sequence
      (mkSimpleVector (Some [Value 1; Value 3; Value 4; Value 4]) 3 4)
      w123_spare.
Proof.
  split_and!; [reflexivity..|].
  intros [_ Hel]. vm_compute in Hel. discriminate Hel.
Qed.

(** C3: [operator==] reads the right operand at every index of the left
    one.  Comparing [{1}] with a default-constructed vector dereferences
    the null buffer; comparing [{1, 2, 3}] with a vector of size 2 and
    capacity 3 reads its slot 2, outside [[0, 2)]. *)
Theorem operator_eq_reads_outside_rhs :
  SimpleVector_init [1] = Return tt w1 ∧
  operator_eq_trace Z.eqb w1 SimpleVector_default
  = ([ReadLhs 0; ReadRhs 0], None) ∧
  ¬ reads_within w1 SimpleVector_default
      (operator_eq_trace Z.eqb w1 SimpleVector_default).1 ∧
  v123 = Return tt w123 ∧
  v12_spare = Return tt w12_spare ∧
  operator_eq_trace Z.eqb w123 w12_spare
  = ([ReadLhs 0; ReadRhs 0; ReadLhs 1; ReadRhs 1; ReadLhs 2; ReadRhs 2],
     Some false) ∧
  ¬ reads_within w123 w12_spare (operator_eq_trace Z.eqb w123 w12_spare).1.
Proof.
  split_and!; [reflexivity|reflexivity| |reflexivity|reflexivity|reflexivity|].
  - intros Hall. apply Forall_cons_1 in Hall as [_ Hall].
    apply Forall_cons_1 in Hall as [Hrhs _]. vm_compute in Hrhs.
    by destruct Hrhs as [_ Hrhs].
  - intros Hall. do 5 apply Forall_cons_1 in Hall as [_ Hall].
    apply Forall_cons_1 in Hall as [Hrhs _]. vm_compute in Hrhs.
    by destruct Hrhs as [_ Hrhs].
Qed.

(** C5 as stated fails: the vector built by [SimpleVector v(Reserve(0))]
    has capacity 0 and a buffer ([new Type[0]] is not null). *)
Lemma size_capacity_invariant_counterexample :
  reachable 0 w_reserve0 ∧ ¬ size_capacity_invariant w_reserve0.
Proof.
  split.
  - apply reach_reserve. by vm_compute.
  - intros [_ [Hnull _]]. specialize (Hnull eq_refl). discriminate Hnull.
Qed.

(** ** The theorems at work on concrete vectors *)

Lemma wf_w123 : wf w123.
Proof. unfold wf, SIZE_MAX. simpl. lia. Defined.

(** C4 at five [PushBack]s (capacity 8) and at a full [{1, 2, 3}]
    (capacity 6). *)
Lemma PushBack_growth_witness :
  (∃ v', push_all [1; 2; 3; 4; 5] SimpleVector_default = Return tt v' ∧
         size_ v' = 5 ∧ least_power_of_two_geq (capacity_ v') 5 ∧
         capacity_ v' = 8) ∧
  (∃ v', PushBack 4 w123 = Return tt v' ∧ capacity_ v' = 6).
Proof.
  destruct (PushBack_growth [1; 2; 3; 4; 5] w123 4) as [Hpush Hfull].
  split.
  - destruct Hpush as [_ Hcap]; [simpl; lia|].
    assert (Hrun :
      push_all [1; 2; 3; 4; 5] SimpleVector_default
      = Return tt
          (mkSimpleVector
             (Some [Value 1; Value 2; Value 3; Value 4; Value 5;
                    Indeterminate; Indeterminate; Indeterminate]) 5 8))
      by (vm_compute; reflexivity).
    eexists. split; [exact Hrun|].
    destruct (Hcap _ Hrun) as [Hsz Hleast].
    split; [exact Hsz|]. split; [exact Hleast|reflexivity].
  - destruct Hfull as [_ Hcap]; [exact wf_w123|reflexivity|].
    assert (Hrun :
      PushBack 4 w123
      = Return tt
          (mkSimpleVector
             (Some [Value 1; Value 2; Value 3; Value 4;
                    Indeterminate; Indeterminate]) 4 6))
      by (vm_compute; reflexivity).
    eexists. split; [exact Hrun|]. exact (Hcap _ Hrun).
Defined.

(** A failed [Resize(2^62)] on the empty vector, caught, leaves a null
    buffer with capacity [2^62]; a [Resize(1)] then returns without
    allocating, and the one element it exposes does not exist. *)
Lemma bad_alloc_breaks_invariant :
  ∃ v1 v2 : @SimpleVector Z,
    Resize_bad_alloc (2 ^ 62) SimpleVector_default = Throw bad_alloc v1 ∧
    items_ v1 = None ∧ capacity_ v1 = 2 ^ 62 ∧
    Resize 0 1 v1 = Return tt v2 ∧
    items_ v2 = None ∧ size_ v2 = 1 ∧
    subscript 0 v2 = Undefined.
Proof.
  exists (mkSimpleVector None 0 (2 ^ 62)), (mkSimpleVector None 1 (2 ^ 62)).
  split_and!; by vm_compute.
Qed.

(** C5 (amended) at the vector [PushBack(1)] makes of an empty one. *)
Lemma reachable_size_capacity_witness :
  reachable 0 w1 ∧
  0 ≤ size_ w1 ≤ capacity_ w1 ∧ (items_ w1 = None → capacity_ w1 = 0).
Proof.
  assert (Hreach : reachable 0 w1).
  { apply (reach_PushBack 0 1 SimpleVector_default w1);
      [apply reach_default|reflexivity]. }
  split; [exact Hreach|exact (reachable_size_capacity 0 w1 Hreach)].
Defined.

(** C6: after [Resize(1)] on [{1, 2, 3}], [Resize(3)] brings back 2 and 3,
    not zeros; [Resize(5)] on [{1, 2, 3}] appends two zeros. *)
Lemma Resize_within_capacity_witness :
  Resize 0 3 (mkSimpleVector (Some [Value 1; Value 2; Value 3]) 1 3)
  = Return tt w123 ∧
  ∃ v', Resize 0 5 w123 = Return tt v' ∧ size_ v' = 5 ∧
        take 3 (elements v') = elements w123 ∧
        drop 3 (elements v') = [Value 0; Value 0].
Proof.
  split.
  - apply (proj1 (Resize_within_capacity 0
      (mkSimpleVector (Some [Value 1; Value 2; Value 3]) 1 3) 3)).
    simpl. lia.
  - apply (proj2 (Resize_within_capacity 0 w123 5)); [exact wf_w123|].
    simpl. lia.
Defined.

(** C7: [Reserve(2)] and [Reserve(100)] on [{1, 2, 3}]. *)
Lemma Reserve_spec_witness :
  wf w123 ∧
  Reserve 2 w123 = Return tt w123 ∧
  ∃ v', Reserve 100 w123 = Return tt v' ∧
        capacity_ v' = 100 ∧ size_ v' = 3 ∧ elements v' = elements w123 ∧
        ∃ l', items_ v' = Some l' ∧ Z.of_nat (length l') = 100 ∧
              l' = elements w123 ++
                   replicate (Z.to_nat (100 - size_ w123)) Indeterminate.
Proof.
  split; [exact wf_w123|]. split.
  - apply (proj1 (Reserve_spec w123 2 wf_w123)). simpl. lia.
  - apply (proj2 (Reserve_spec w123 100 wf_w123)). simpl. lia.
Defined.

(** C8: [At(10)] and [At(1)] on [{1, 2, 3}]. *)
Lemma At_spec_witness :
  At 10 w123 = Throw (out_of_range "Operation At: Out of range") w123 ∧
  At 1 w123 = subscript 1 w123 ∧
  At 1 w123 = Return (Value 2) w123.
Proof.
  split_and!.
  - apply (proj1 (At_spec w123 10)). simpl. lia.
  - apply (At_spec w123 1). simpl. lia.
  - reflexivity.
Defined.

(** C9 on [{1, 2, 3}]. *)
Lemma Clear_Resize_restores_witness :
  size_ w123 ≤ capacity_ w123 ∧
  ∃ v', and_then (Clear w123) (Resize 0 (size_ w123)) = Return tt v' ∧
        size_ v' = size_ w123 ∧ elements v' = elements w123 ∧ v' = w123.
Proof.
  assert (Hsz : size_ w123 ≤ capacity_ w123) by (simpl; lia).
  split; [exact Hsz|exact (Clear_Resize_restores 0 w123 Hsz)].
Defined.

(** C10 on a default-constructed vector. *)
Lemma Erase_past_end_undefined_witness :
  size_ (@SimpleVector_default Z) ≤ 0 ∧
  Erase 0 (@SimpleVector_default Z) = Undefined.
Proof.
  assert (Hempty : size_ (@SimpleVector_default Z) ≤ 0) by (simpl; lia).
  split; [exact Hempty|].
  exact (Erase_past_end_undefined (@SimpleVector_default Z) 0 Hempty).
Defined.

(** C10 as stated fails: on a default-constructed vector [Erase(begin())]
    does not return with a wrapped size. *)
Lemma Erase_wraps_size_counterexample :
  size_ (@SimpleVector_default Z) = 0 ∧
  ¬ Erase_wraps_size (@SimpleVector_default Z).
Proof.
  split; [reflexivity|].
  intros (it & v' & Hrun & _). vm_compute in Hrun. discriminate Hrun.
Qed.

(** ** The further properties at work on concrete vectors *)

Lemma wf_w123_spare : wf w123_spare.
Proof. unfold wf, SIZE_MAX. simpl. lia. Defined.

Lemma determinate_w123 : determinate w123.
Proof. repeat constructor; discriminate. Defined.

Lemma reachable_w123 : reachable 0 w123.
Proof.
  apply (reach_init 0 [1; 2; 3] w123); [unfold SIZE_MAX; simpl; lia|reflexivity].
Defined.

(** X1: erasing the middle element of [{1, 2, 3}]. *)
Lemma Erase_removes_witness :
  wf w123 ∧ 0 ≤ 1 < size_ w123 ∧
  ∃ v', Erase 1 w123 = Return 1 v' ∧ wf v' ∧ size_ v' = 2 ∧
        capacity_ v' = 3 ∧ elements v' = [Value 1; Value 3].
Proof.
  assert (Hpos : 0 ≤ 1 < size_ w123) by (simpl; lia).
  split; [exact wf_w123|]. split; [exact Hpos|].
  exact (Erase_removes w123 1 wf_w123 Hpos).
Defined.

(** X2: inserting 9 at index 1 of the full [{1, 2, 3}]. *)
Lemma Insert_full_inserts_witness :
  wf w123 ∧ size_ w123 = capacity_ w123 ∧
  ∃ v', Insert 1 9 w123 = Return 1 v' ∧ wf v' ∧ size_ v' = 4 ∧
        capacity_ v' = 6 ∧
        elements v' = [Value 1; Value 9; Value 2; Value 3].
Proof.
  split; [exact wf_w123|]. split; [reflexivity|].
  apply (Insert_full_inserts w123 1 9 wf_w123 eq_refl);
    [simpl; lia|unfold SIZE_MAX; simpl; lia].
Defined.

(** X3: inserting at index 1 with a free slot: the position holds 9 and
    the element before it is kept. *)
Lemma Insert_returns_position_witness :
  wf w123_spare ∧
  ∃ v', Insert 1 9 w123_spare = Return 1 v' ∧ wf v' ∧ size_ v' = 4 ∧
        elements v' !! 1%nat = Some (Value 9) ∧
        take 1 (elements v') = [Value 1].
Proof.
  split; [exact wf_w123_spare|].
  apply (Insert_returns_position w123_spare 1 9 wf_w123_spare);
    [simpl; lia|]. left. simpl. lia.
Defined.

(** X4: two [PushBack]s on [{1, 2, 3}]. *)
Lemma push_all_appends_witness :
  wf w123 ∧
  (∃ v', push_all [4; 5] w123 = Return tt v') ∧
  ∀ v', push_all [4; 5] w123 = Return tt v' →
        size_ v' = 5 ∧ 3 ≤ capacity_ v' ∧
        elements v' = [Value 1; Value 2; Value 3; Value 4; Value 5].
Proof.
  split; [exact wf_w123|].
  destruct (push_all_appends [4; 5] w123 wf_w123) as [Hret Hel].
  split; [apply Hret; simpl; lia|exact Hel].
Defined.

(** X5: one [PushBack] into the free slot of a vector of capacity 4. *)
Lemma push_all_within_capacity_witness :
  wf w123_spare ∧
  ∃ v', push_all [7] w123_spare = Return tt v' ∧ capacity_ v' = 4 ∧
        size_ v' = 4 ∧
        elements v' = [Value 1; Value 2; Value 3; Value 7].
Proof.
  split; [exact wf_w123_spare|].
  apply (push_all_within_capacity [7] w123_spare wf_w123_spare).
  simpl. lia.
Defined.

(** X6: [PopBack] on an empty vector and on [{1, 2, 3}]. *)
Lemma PopBack_spec_witness :
  PopBack (@SimpleVector_default Z) = Abort ∧
  ∃ v', PopBack w123 = Return tt v' ∧ wf v' ∧ size_ v' = 2 ∧
        capacity_ v' = 3 ∧ items_ v' = items_ w123 ∧
        elements v' = [Value 1; Value 2].
Proof.
  split.
  - exact (proj1 (PopBack_spec (@SimpleVector_default Z)) eq_refl).
  - apply (proj2 (PopBack_spec w123) wf_w123). simpl. lia.
Defined.

(** X7: two pushes and two pops on [{1, 2, 3}]. *)
Lemma push_pop_roundtrip_witness :
  wf w123 ∧
  ∃ v', and_then (push_all [4; 5] w123) (pop_all 2) = Return tt v' ∧
        same_sequence v' w123.
Proof.
  split; [exact wf_w123|].
  apply (push_pop_roundtrip [4; 5] w123 wf_w123). simpl. lia.
Defined.

(** X8: [SimpleVector<int>(3, 7)]. *)
Lemma SimpleVector_fill_spec_witness :
  ∃ v, SimpleVector_fill 3 7 = Return tt v ∧ size_ v = 3 ∧ capacity_ v = 3 ∧
       elements v = [Value 7; Value 7; Value 7] ∧ (items_ v = None ↔ 3 = 0).
Proof. apply (SimpleVector_fill_spec 3 7). lia. Defined.

(** X10: copying a vector of size 3 and capacity 4. *)
Lemma SimpleVector_copy_spec_witness :
  wf w123_spare ∧
  ∃ v, SimpleVector_copy w123_spare = Return tt v ∧ wf v ∧
       same_sequence v w123_spare ∧ capacity_ v = 4 ∧ items_ v ≠ None.
Proof.
  split; [exact wf_w123_spare|].
  exact (SimpleVector_copy_spec w123_spare wf_w123_spare).
Defined.

(** X11: assigning [{1, 2, 3}] to a vector of capacity 1. *)
Lemma assign_copy_spec_witness :
  wf w1 ∧ wf w123 ∧
  ∃ v, assign_copy false w123 w1 = Return tt v ∧ wf v ∧
       same_sequence v w123 ∧ capacity_ v = 3.
Proof.
  assert (Hw1 : wf w1) by (unfold wf, SIZE_MAX; simpl; lia).
  split; [exact Hw1|]. split; [exact wf_w123|].
  exact (proj2 (assign_copy_spec w1 w123 Hw1 wf_w123)).
Defined.

(** X12: reading index 2 of [{1, 2, 3}]. *)
Lemma access_below_size_witness :
  wf w123 ∧
  ∃ x, subscript 2 w123 = Return x w123 ∧ At 2 w123 = Return x w123 ∧
       elements w123 !! 2%nat = Some x.
Proof.
  split; [exact wf_w123|].
  apply (access_below_size w123 2 wf_w123). simpl. lia.
Defined.

(** X13: [v[1] = 9] on [{1, 2, 3}]. *)
Lemma subscript_assign_At_witness :
  wf w123 ∧
  ∃ v', subscript_assign 1 9 w123 = Return tt v' ∧ wf v' ∧
        size_ v' = 3 ∧ capacity_ v' = 3 ∧
        At 1 v' = Return (Value 9) v' ∧
        elements v' = [Value 1; Value 9; Value 3].
Proof.
  split; [exact wf_w123|].
  apply (subscript_assign_At w123 1 9 wf_w123). simpl. lia.
Defined.

(** X14: [Resize(2)] and [Resize(4)] on [{1, 2, 3}]. *)
Lemma Resize_spec_witness :
  wf w123 ∧
  (∃ v', Resize 0 2 w123 = Return tt v' ∧ size_ v' = 2 ∧ capacity_ v' = 3 ∧
         elements v' = [Value 1; Value 2]) ∧
  (∃ v', Resize 0 4 w123 = Return tt v' ∧ size_ v' = 4 ∧ capacity_ v' = 6).
Proof.
  split; [exact wf_w123|]. split.
  - destruct (Resize_spec 0 w123 2 wf_w123)
      as (v' & Hrun & _ & Hsz & _ & Hcap & _ & Hel);
      [unfold SIZE_MAX; simpl; lia|].
    exists v'. split; [exact Hrun|]. split; [exact Hsz|].
    split; [apply Hcap; simpl; lia|apply Hel; simpl; lia].
  - destruct (Resize_spec 0 w123 4 wf_w123)
      as (v' & Hrun & _ & Hsz & _ & _ & Hcap & _);
      [unfold SIZE_MAX; simpl; lia|].
    exists v'. split; [exact Hrun|]. split; [exact Hsz|].
    apply Hcap. simpl. lia.
Defined.

(** X15: [Clear] then [PushBack(9)] on [{1, 2, 3}]. *)
Lemma Clear_PushBack_reuses_witness :
  wf w123 ∧
  ∃ v', and_then (Clear w123) (PushBack 9) = Return tt v' ∧
        size_ v' = 1 ∧ capacity_ v' = 3 ∧ elements v' = [Value 9].
Proof.
  split; [exact wf_w123|].
  apply (Clear_PushBack_reuses w123 9 wf_w123). simpl. lia.
Defined.

(** X17: [{1, 2, 3} == {1, 2, 3}] and [{1, 2, 3} != {1, 2, 3}] with [==]
    on integers. *)
Lemma operator_eq_answer_witness :
  operator_eq Z.eqb w123 w123 = Some true ∧
  equal_sequence Z.eqb w123 w123 ∧
  operator_ne Z.eqb w123 w123 = Some false ∧
  (∀ x y, Z.eqb x y = true ↔ x = y) ∧ same_sequence w123 w123.
Proof.
  assert (Heq : operator_eq Z.eqb w123 w123 = Some true) by reflexivity.
  destruct (operator_eq_answer Z.eqb w123 w123 true) as (Hans & _ & Hid).
  split; [exact Heq|].
  split; [exact (proj1 (Hans Heq) eq_refl)|].
  split; [reflexivity|].
  split; [exact Z.eqb_eq|].
  exact (proj1 (Hid Z.eqb_eq Heq) eq_refl).
Defined.

(** X18: [{1} == {1, 2, 3}] is defined. *)
Lemma operator_eq_defined_witness :
  wf w1 ∧ wf w123 ∧ determinate w1 ∧ determinate w123 ∧
  reads_within w1 w123 (operator_eq_trace Z.eqb w1 w123).1 ∧
  (∃ r, operator_eq Z.eqb w1 w123 = Some r ∧
        (r = true ↔ equal_sequence Z.eqb w1 w123)) ∧
  (∀ x, Z.eqb x x = true) ∧
  operator_eq Z.eqb w1 w1 = Some true.
Proof.
  assert (Hw1 : wf w1) by (unfold wf, SIZE_MAX; simpl; lia).
  assert (Hd1 : determinate w1) by (repeat constructor; discriminate).
  split; [exact Hw1|]. split; [exact wf_w123|].
  split; [exact Hd1|]. split; [exact determinate_w123|].
  destruct (operator_eq_defined Z.eqb w1 w123 Hw1 wf_w123 Hd1 determinate_w123)
    as [Hle Hrefl].
  destruct Hle as [Hreads Hans]; [simpl; lia|].
  split; [exact Hreads|]. split; [exact Hans|].
  split; [exact Z.eqb_refl|exact (Hrefl Z.eqb_refl)].
Defined.

(** X19: copying [{1, 2, 3}]. *)
Lemma copy_compares_equal_witness :
  (∀ x, Z.eqb x x = true) ∧ wf w123 ∧ determinate w123 ∧
  ∃ v, SimpleVector_copy w123 = Return tt v ∧
       operator_eq Z.eqb v w123 = Some true ∧
       operator_eq Z.eqb w123 v = Some true.
Proof.
  split; [exact Z.eqb_refl|].
  split; [exact wf_w123|]. split; [exact determinate_w123|].
  exact (copy_compares_equal Z.eqb w123 Z.eqb_refl wf_w123 determinate_w123).
Defined.

(** X21: [{1, 2, 3}] against [{1}] with [<] on integers. *)
Lemma operator_lt_lexicographic_witness :
  wf w123 ∧ wf w1 ∧
  operator_lt Z.ltb w123 w1 = Some false ∧
  operator_gt Z.ltb w123 w1 = Some true ∧
  operator_le Z.ltb w123 w1 = Some false ∧
  operator_ge Z.ltb w123 w1 = Some true.
Proof.
  assert (Hw1 : wf w1) by (unfold wf, SIZE_MAX; simpl; lia).
  split; [exact wf_w123|]. split; [exact Hw1|].
  exact (operator_lt_lexicographic Z.ltb w123 w1 [1; 2; 3] [1]
           wf_w123 Hw1 eq_refl eq_refl).
Defined.

(** X22: [{1} < {1, 2, 3}], and [{1}] against itself. *)
Lemma operator_lt_irreflexive_prefix_witness :
  (∀ x, Z.ltb x x = false) ∧ wf w1 ∧ wf w123 ∧
  operator_lt Z.ltb w1 w1 = Some false ∧
  operator_le Z.ltb w1 w1 = Some true ∧
  operator_ge Z.ltb w1 w1 = Some true ∧
  operator_lt Z.ltb w1 w123 = Some true ∧
  operator_lt Z.ltb w123 w1 = Some false.
Proof.
  assert (Hw1 : wf w1) by (unfold wf, SIZE_MAX; simpl; lia).
  split; [exact Z.ltb_irrefl|]. split; [exact Hw1|]. split; [exact wf_w123|].
  exact (operator_lt_irreflexive_prefix Z.ltb w1 w123 [1] [3] 2
           Z.ltb_irrefl Hw1 wf_w123 eq_refl eq_refl).
Defined.

(** X23: a failed [Resize(2^62)] on the empty vector, a failed
    [Insert(end(), 4)] on the full [{1, 2, 3}], and the two paths that do
    not allocate. *)
Lemma bad_alloc_keeps_new_capacity_witness :
  Resize_bad_alloc (2 ^ 62) (@SimpleVector_default Z)
  = Throw bad_alloc (mkSimpleVector None 0 (2 ^ 62)) ∧
  InsertInVector_bad_alloc 3 4 w123
  = Throw bad_alloc (mkSimpleVector (items_ w123) 3 6) ∧
  Resize_bad_alloc 2 w123 = Resize 0 2 w123 ∧
  InsertInVector_bad_alloc 1 9 w123_spare = InsertInVector 1 9 w123_spare ∧
  Reserve_bad_alloc 100 w123 = Throw bad_alloc w123 ∧
  assign_copy_bad_alloc false w123 w1 = Throw bad_alloc w1.
Proof.
  pose proof (bad_alloc_keeps_new_capacity 0 w123)
    as (_ & _ & _ & _ & Hreserve & _).
  pose proof (bad_alloc_keeps_new_capacity 0 w1)
    as (_ & _ & _ & _ & _ & Hassign).
  split_and!.
  5: { apply Hreserve. simpl. lia. }
  5: { apply Hassign. simpl. lia. }
  - apply (proj1 (bad_alloc_keeps_new_capacity 0 SimpleVector_default)).
    simpl. lia.
  - apply (proj1 (proj2 (bad_alloc_keeps_new_capacity 0 w123))).
    simpl. lia.
  - apply (proj1 (proj2 (proj2 (bad_alloc_keeps_new_capacity 0 w123)))).
    simpl. lia.
  - apply (proj1 (proj2 (proj2 (proj2
             (bad_alloc_keeps_new_capacity 0 w123_spare))))).
    simpl. lia.
Defined.
